(** * sails-hook-quest: the scheduling core, embedded and verified

    A shallow embedding of the four cooperating modules of the hook

      - [lib/core/scheduler.js]    ([getNextRunTime], [parseInterval], ...)
      - [lib/core/job-control.js]  ([scheduleJob], [stopJob], [startJobs], ...)
      - [lib/core/executor.js]     ([executeJob], [buildCommandArgs])
      - [lib/core/loader.js]       ([loadJobs], [addJobDefinition], ...)

    and of the context wiring of [lib/index.js].

    Conventions of the embedding.

    - Instants and durations are milliseconds in [Z] (JavaScript numbers that
      are integers; [NaN] is an explicit [None] where the code can produce it).
      Instants are taken to be time values of a [Date] ([time_value]: at
      most 8.64e15 ms from the epoch, all of them exact in a double); the
      invalid dates that the code makes of sums beyond that range are not
      followed.
    - The three tables of the context are explicit fields of a [World]:
      [jobs] is an insertion-ordered association list (a JS [Map] iterates in
      insertion order and [Array.from(jobs.keys())] depends on it), [timers]
      and [running] are finite maps.
    - The platform's timer queue ([setTimeout]/[clearTimeout]) is the field
      [pending]; a timer callback is data ([Callback]) that [run_callback]
      interprets.
    - The child processes spawned by the executor and the events given to
      [sails.emit] are appended to [children] and [events].
    - The wall clock [now] only moves between events: synchronous code runs
      in zero time.  It is the clock [Date.now()] reads, which the system can
      set back or forth; the platform keeps its timers on another one.
    - [sails.log] output is not modelled, and [sails.emit] records the event:
      the listeners an application registers are taken to return.  A promise
      is represented by its state when the call that made it returns
      ([Dispatch]) and by the way a pending one settles later
      ([Settlement]); [Promise.all] in [runJobs] is left as the list of its
      promises.
    - Schedule fields hold scalars ([JsVal]); a [date] is a [Date] object,
      given by its epoch milliseconds.
    - Third-party parsers (cron-parser, later, human-interval), the file
      system and what [spawn] throws are parameters, gathered in [Env]. *)

From Stdlib Require Import ZArith String Ascii List Bool Lia.
From stdpp Require Import base gmap strings list fin_maps.

Local Open Scope Z_scope.

(** ** JavaScript values and objects *)

(** The scalar values a schedule field or an input can hold.  A BigInt is
    the scalar that [JSON.stringify] refuses. *)
Inductive JsVal :=
  | VUndef
  | VBool (b : bool)
  | VNum (n : Z)
  | VStr (s : string)
  | VBigInt (n : Z).

(** JavaScript truthiness. *)
Definition truthy (v : JsVal) : bool :=
  match v with
  | VUndef => false
  | VBool b => b
  | VNum n => negb (n =? 0)
  | VStr s => negb (String.eqb s "")
  | VBigInt n => negb (n =? 0)
  end.

Definition truthy_str (o : option string) : bool :=
  match o with
  | Some s => negb (String.eqb s "")
  | None => false
  end.

(** The largest and smallest time values of a [Date]. *)
Definition MAX_TIME_VALUE : Z := 8640000000000000.

Definition time_value (t : Z) : Prop := - MAX_TIME_VALUE <= t <= MAX_TIME_VALUE.

(** An array index: the canonical decimal text of an integer from 0 to
    2^32 - 2.  An object lists its own properties with such keys first. *)
Definition array_index (k : string) : option N :=
  let l := list_ascii_of_string k in
  let digit c := let n := nat_of_ascii c in (48 <=? n)%nat && (n <=? 57)%nat in
  let value :=
    fold_left (fun acc c => (10 * acc + (N.of_nat (nat_of_ascii c) - 48))%N) l 0%N in
  match l with
  | [] => None
  | c :: rest =>
      if forallb digit l
         && (negb (Ascii.eqb c "0") || match rest with [] => true | _ => false end)
         && (length l <=? 10)%nat && (value <=? 4294967294)%N
      then Some value else None
  end.

Definition is_index (k : string) : bool :=
  match array_index k with Some _ => true | None => false end.

Definition index_of (k : string) : N :=
  match array_index k with Some n => n | None => 0%N end.

(** Insertion-ordered string-keyed tables: plain objects and [Map]s.
    Setting an existing key keeps its position, a new key goes last. *)
Section ordered_table.
Context {A : Type}.

Fixpoint oset (k : string) (v : A) (m : list (string * A)) : list (string * A) :=
  match m with
  | [] => [(k, v)]
  | (k', v') :: m' =>
      if String.eqb k k' then (k, v) :: m' else (k', v') :: oset k v m'
  end.

Fixpoint oget (k : string) (m : list (string * A)) : option A :=
  match m with
  | [] => None
  | (k', v') :: m' => if String.eqb k k' then Some v' else oget k m'
  end.

Fixpoint odelete (k : string) (m : list (string * A)) : list (string * A) :=
  match m with
  | [] => []
  | (k', v') :: m' =>
      if String.eqb k k' then odelete k m' else (k', v') :: odelete k m'
  end.

Definition okeys (m : list (string * A)) : list string := map fst m.

Fixpoint insert_by_index (p : string * A) (l : list (string * A))
  : list (string * A) :=
  match l with
  | [] => [p]
  | q :: l' =>
      if (index_of (fst p) <=? index_of (fst q))%N then p :: l
      else q :: insert_by_index p l'
  end.

(** The order in which a plain object lists its own properties
    ([Object.entries], a spread): the array-index keys first, ascending, then
    the other keys in the order they were added. *)
Definition own_order (m : list (string * A)) : list (string * A) :=
  fold_right insert_by_index [] (List.filter (fun p => is_index (fst p)) m)
  ++ List.filter (fun p => negb (is_index (fst p))) m.

(** [{ ...dst, ...src }]: the own properties of [src] assigned over [dst]. *)
Definition spread (dst src : list (string * A)) : list (string * A) :=
  own_order (fold_left (fun acc p => oset (fst p) (snd p) acc) src dst).
End ordered_table.

Definition Obj := list (string * JsVal).

(** ** Errors thrown or used to reject promises *)

Inductive Error :=
  | ErrDateAndTimeout (job : string)
      (* Job "<name>": Cannot combine 'date' and 'timeout'. *)
  | ErrDuplicateName (name : option string)
      (* Duplicate job name "<name>" in config/quest.js. *)
  | ErrScriptNotFound (name : string)
      (* Job "<name>" not found. Please check that the script exists ... *)
  | ErrExitCode (name : string) (code : option Z)
      (* Job "<name>" exited with code <code>; None is a null code *)
  | ErrSpawn (message : string)
      (* the error object given to child.on('error') *)
  | ErrSerialize
      (* TypeError: Do not know how to serialize a BigInt *)
  | ErrSpawnThrown (message : string).
      (* what spawn itself throws *)

(** ** Jobs and configuration *)

(** A normalized job, as [addJobDefinition] builds it. *)
Record Job := {
  job_name : string;
  job_friendlyName : string;
  job_description : option string;
  job_interval : JsVal;
  job_timeout : JsVal;
  job_cron : option string;
  job_cronValidate : JsVal;
  job_date : option Z;
  job_inputs : Obj;
  job_scriptInputs : Obj;
  job_paused : bool;
  job_withoutOverlapping : bool
}.

(** A job definition as found in [config.jobs], in a script's [quest]
    property or given to [sails.quest.add].  [None] is an absent key. *)
Record JobDef := {
  def_name : option string;
  def_friendlyName : option string;
  def_description : option string;
  def_interval : JsVal;
  def_timeout : JsVal;
  def_cron : option string;
  def_cronValidate : JsVal;
  def_date : option Z;
  def_inputs : option Obj;
  def_scriptInputs : option Obj;
  def_withoutOverlapping : option bool
}.

(** [sails.config.quest], the fields the core reads. *)
Record Config := {
  cfg_autoStart : bool;
  cfg_timezone : option string;
  cfg_withoutOverlapping : option bool;
  cfg_jobs : option (list (string + JobDef))
    (* [None]: not an array; [inl s]: the string shorthand *)
}.

(** One element of the argument vector given to [spawn]: a literal word, or
    the text [--key=JSON.stringify(value)]. *)
Inductive Arg :=
  | ArgWord (s : string)
  | ArgInput (key : string) (value : JsVal).

(** ** External collaborators *)

(** What [later.parse.text] followed by [later.schedule(..).next(1)] gives. *)
Inductive LaterResult :=
  | LaterError            (* schedule.error is set, or a throw *)
  | LaterNever            (* next(1) is later.NEVER, a falsy value *)
  | LaterNext (t : Z).

Record Env := {
  (* CronExpressionParser.parse(expr, { tz }).next().toDate() at the given
     instant; None when the library throws. *)
  cron_next : string -> option string -> Z -> option Z;
  later_text : string -> Z -> LaterResult;
  (* humanInterval(str); None for NaN, undefined or a throw. *)
  humanInterval : string -> option Z;
  (* fs.existsSync of <appPath>/<scriptsDir>/<name>.js *)
  script_exists : string -> bool;
  (* what spawn(sailsPath, args, ...) throws instead of returning a child
     (an argument list too long for the system, an argument with a NUL
     byte); None when it returns.  Failures that spawn reports later come
     as the child's 'error' event. *)
  spawn_throws : list Arg -> option string;
  (* whether the global [sails] is defined: guards every sails.emit *)
  global_sails : bool;
  config : Config
}.

(** ** core/scheduler.js *)

Module Scheduler.

Definition is_digit (c : ascii) : bool :=
  let n := nat_of_ascii c in (48 <=? n)%nat && (n <=? 57)%nat.

(** [\s] on the one-byte characters of a string. *)
Definition is_space (c : ascii) : bool :=
  let n := nat_of_ascii c in
  ((9 <=? n)%nat && (n <=? 13)%nat) || (n =? 32)%nat.

Definition lower (c : ascii) : ascii :=
  let n := nat_of_ascii c in
  if (65 <=? n)%nat && (n <=? 90)%nat then ascii_of_nat (n + 32) else c.

Definition lower_all (l : list ascii) : list ascii := map lower l.

(** [parseInt] on a run of decimal digits. *)
Definition parseInt (ds : list ascii) : Z :=
  fold_left (fun acc c => 10 * acc + (Z.of_nat (nat_of_ascii c) - 48)) ds 0.

Fixpoint span (p : ascii -> bool) (l : list ascii) : list ascii * list ascii :=
  match l with
  | [] => ([], [])
  | c :: l' =>
      if p c then let (a, b) := span p l' in (c :: a, b) else ([], l)
  end.

Definition ascii_list_eqb (a b : list ascii) : bool :=
  String.eqb (string_of_list_ascii a) (string_of_list_ascii b).

(** [str.includes(needle)] *)
Fixpoint includes (needle : string) (str : string) : bool :=
  String.prefix needle str ||
  match str with
  | EmptyString => false
  | String _ rest => includes needle rest
  end.

Definition shorthandMap (c : ascii) : option string :=
  if Ascii.eqb c "s" then Some " seconds"
  else if Ascii.eqb c "m" then Some " minutes"
  else if Ascii.eqb c "h" then Some " hours"
  else if Ascii.eqb c "d" then Some " days"
  else None.

(** [convertShorthand]: [/^(\d+)([smhd])$/] rewrites '5s' to '5 seconds'. *)
Definition convertShorthand (str : string) : string :=
  let (ds, rest) := span is_digit (list_ascii_of_string str) in
  match ds, rest with
  | _ :: _, [c] =>
      match shorthandMap c with
      | Some unit => string_of_list_ascii ds +:+ unit
      | None => str
      end
  | _, _ => str
  end.

Definition unit_alternatives : list string :=
  ["second"; "seconds"; "minute"; "minutes"; "hour"; "hours"; "day"; "days"].

(** [/^every\s+(\d+)\s+(seconds?|minutes?|hours?|days?)$/i]: the two
    captured groups, as written in the input. *)
Definition everyMatch (str : string) : option (list ascii * string) :=
  let l := list_ascii_of_string str in
  if ascii_list_eqb (lower_all (firstn 5 l)) (list_ascii_of_string "every") then
    let (sp1, r1) := span is_space (skipn 5 l) in
    let (ds, r2) := span is_digit r1 in
    let (sp2, r3) := span is_space r2 in
    match sp1, ds, sp2 with
    | _ :: _, _ :: _, _ :: _ =>
        let unit := string_of_list_ascii r3 in
        if existsb (String.eqb (string_of_list_ascii (lower_all r3))) unit_alternatives
        then Some (ds, unit) else None
    | _, _, _ => None
    end
  else None.

(** [unit.replace(/s$/, '')] *)
Definition strip_plural (unit : string) : string :=
  match rev (list_ascii_of_string unit) with
  | c :: r => if Ascii.eqb c "s" then string_of_list_ascii (rev r) else unit
  | [] => unit
  end.

Definition msMap (unit : string) : option Z :=
  if String.eqb unit "second" then Some 1000
  else if String.eqb unit "minute" then Some 60000
  else if String.eqb unit "hour" then Some 3600000
  else if String.eqb unit "day" then Some 86400000
  else None.

(** A number used as a condition: [NaN] ([None]) and [0] are falsy. *)
Definition truthy_ms (ms : option Z) : option Z :=
  match ms with
  | Some n => if n =? 0 then None else Some n
  | None => None
  end.

Definition parseInterval (E : Env) (intervalStr : string) (fromDate : Z) (clock : Z)
  : option Z :=
  let processedStr := convertShorthand intervalStr in
  let every :=
    match everyMatch processedStr with
    | Some (ds, unit) =>
        truthy_ms (Z.mul (parseInt ds) <$> msMap (strip_plural unit))
    | None => None
    end in
  match every with
  | Some ms => Some (fromDate + ms)
  | None =>
      let text :=
        if includes "at" processedStr || includes "on the" processedStr then
          match later_text E processedStr clock with
          | LaterNext t => Some t
          | _ => None
          end
        else None in
      match text with
      | Some t => Some t
      | None =>
          match truthy_ms (humanInterval E processedStr) with
          | Some ms => Some (fromDate + ms)
          | None => None
          end
      end
  end.

(** [parseTimeout]; the result [None] stands for [null] and for the falsy
    [later.NEVER], which [scheduleJob] treats alike. *)
Definition parseTimeout (E : Env) (timeout : JsVal) (fromDate : Z) (clock : Z)
  : option Z :=
  match timeout with
  | VStr s =>
      let by_duration :=
        match truthy_ms (humanInterval E s) with
        | Some ms => Some (fromDate + ms)
        | None => None
        end in
      if String.prefix "at " s then
        match later_text E s clock with
        | LaterNext t => Some t
        | LaterNever => None
        | LaterError => by_duration
        end
      else by_duration
  | VNum n => Some (fromDate + n)
  | _ => None
  end.

Inductive Result :=
  | Throw (e : Error)
  | Return (nextRun : option Z).

(** [timeout !== undefined && timeout !== false] *)
Definition timeout_given (v : JsVal) : bool :=
  match v with
  | VUndef | VBool false => false
  | _ => true
  end.

Definition is_some {A} (o : option A) : bool :=
  match o with Some _ => true | None => false end.

(** [typeof v === 'string'] and [typeof v === 'number'], with the value. *)
Definition as_string (v : JsVal) : option string :=
  match v with VStr s => Some s | _ => None end.

Definition as_number (v : JsVal) : option Z :=
  match v with VNum n => Some n | _ => None end.

(** [getNextRunTime(job, config)], with [new Date()] read as [clock].
    A registered job carries no [timezone] and no [cronOptions]
    ([addJobDefinition] does not copy them), so the cron parser is given the
    configured timezone alone. *)
Definition getNextRunTime (E : Env) (job : Job) (clock : Z) : Result :=
  let now := clock in
  let timezone := cfg_timezone (config E) in
  if is_some (job_date job) && timeout_given (job_timeout job) then
    Throw (ErrDateAndTimeout (job_name job))
  else
    match (if truthy_str (job_cron job) then job_cron job else None) with
    | Some expr => Return (cron_next E expr timezone now)
    | None =>
    match (if truthy (job_interval job) then as_string (job_interval job) else None) with
    | Some intervalStr => Return (parseInterval E intervalStr now now)
    | None =>
    match as_number (job_interval job) with
    | Some n => Return (Some (now + n))
    | None =>
        if timeout_given (job_timeout job) then
          Return (parseTimeout E (job_timeout job) now now)
        else
          match job_date job with
          | Some date => if now <? date then Return (Some date) else Return None
          | None => Return None
          end
    end end end.

End Scheduler.

(** ** The context: tables, platform timers, spawned children *)

Definition MAX_SAFE_TIMEOUT : Z := 2147483647.

(** The two closures that [scheduleJob] hands to [setTimeout].  [Fire]
    captures the job object read at arming time; only its [interval] and
    [cron] fields are read when it runs, and nothing assigns to them. *)
Inductive Callback :=
  | Recheck (name : string)
  | Fire (name : string) (job : Job).

Definition callback_name (cb : Callback) : string :=
  match cb with
  | Recheck name => name
  | Fire name _ => name
  end.

Record Timer := {
  timer_id : nat;
  timer_due : Z;
  timer_cb : Callback
}.

(** A child process created by [spawn], with the argument vector it was
    given.  [child_inputs] is the [inputs] object that the handlers
    registered on the child close over (it goes into their events);
    [child_inflight] is a history variable: the in-flight table as it stood
    when [spawn] was called. *)
Record Child := {
  child_pid : nat;
  child_name : string;
  child_args : list Arg;
  child_inputs : Obj;
  child_inflight : gmap string Z
}.

(** The payloads of quest:job:start, quest:job:complete, quest:job:error.
    A duration of [None] is [NaN]. *)
Inductive Event :=
  | JobStart (name : string) (inputs : Obj) (timestamp : Z)
  | JobComplete (name : string) (inputs : Obj) (duration : option Z) (timestamp : Z)
  | JobError (name : string) (inputs : Obj) (error : Error) (duration : option Z)
      (timestamp : Z).

Record World := {
  now : Z;
  jobs : list (string * Job);
  timers : gmap string nat;
  running : gmap string Z;
  pending : list Timer;
  next_timer : nat;
  children : list Child;
  events : list Event
}.

Definition set_now (f : Z -> Z) (w : World) : World :=
  {| now := f (now w); jobs := jobs w; timers := timers w; running := running w;
     pending := pending w; next_timer := next_timer w; children := children w;
     events := events w |}.

Definition set_jobs (f : list (string * Job) -> list (string * Job)) (w : World) : World :=
  {| now := now w; jobs := f (jobs w); timers := timers w; running := running w;
     pending := pending w; next_timer := next_timer w; children := children w;
     events := events w |}.

Definition set_timers (f : gmap string nat -> gmap string nat) (w : World) : World :=
  {| now := now w; jobs := jobs w; timers := f (timers w); running := running w;
     pending := pending w; next_timer := next_timer w; children := children w;
     events := events w |}.

Definition set_running (f : gmap string Z -> gmap string Z) (w : World) : World :=
  {| now := now w; jobs := jobs w; timers := timers w; running := f (running w);
     pending := pending w; next_timer := next_timer w; children := children w;
     events := events w |}.

Definition set_pending (f : list Timer -> list Timer) (w : World) : World :=
  {| now := now w; jobs := jobs w; timers := timers w; running := running w;
     pending := f (pending w); next_timer := next_timer w; children := children w;
     events := events w |}.

Definition set_next_timer (f : nat -> nat) (w : World) : World :=
  {| now := now w; jobs := jobs w; timers := timers w; running := running w;
     pending := pending w; next_timer := f (next_timer w); children := children w;
     events := events w |}.

Definition set_children (f : list Child -> list Child) (w : World) : World :=
  {| now := now w; jobs := jobs w; timers := timers w; running := running w;
     pending := pending w; next_timer := next_timer w; children := f (children w);
     events := events w |}.

Definition set_events (f : list Event -> list Event) (w : World) : World :=
  {| now := now w; jobs := jobs w; timers := timers w; running := running w;
     pending := pending w; next_timer := next_timer w; children := children w;
     events := f (events w) |}.

(** The world of a freshly defined hook: empty tables, nothing armed. *)
Definition initial (t0 : Z) : World :=
  {| now := t0; jobs := []; timers := ∅; running := ∅; pending := [];
     next_timer := 0%nat; children := []; events := [] |}.

(** *** The platform's timers *)

Module Platform.

(** Node's [setTimeout]: a delay above 2^31 - 1 or below 1 is replaced by 1.
    Returns the handle. *)
Definition setTimeout (cb : Callback) (delay : Z) (w : World) : nat * World :=
  let d := if (delay <? 1) || (MAX_SAFE_TIMEOUT <? delay) then 1 else delay in
  let t := {| timer_id := next_timer w; timer_due := now w + d; timer_cb := cb |} in
  (next_timer w, set_next_timer S (set_pending (fun q => q ++ [t]) w)).

(** [clearTimeout] and [clearInterval] (one and the same in Node): a no-op
    on a handle that already fired or was cleared. *)
Definition clearTimeout (t : nat) (w : World) : World :=
  set_pending (filter (fun x => timer_id x ≠ t)) w.

Definition clearInterval := clearTimeout.

(** [sails.emit], which the core only calls under [if (global.sails)]. *)
Definition emit (E : Env) (ev : Event) (w : World) : World :=
  if global_sails E then set_events (fun l => l ++ [ev]) w else w.

(** [spawn(sailsPath, args, ...)] *)
Definition spawn (name : string) (args : list Arg) (inputs : Obj) (w : World)
  : Child * World :=
  let c := {| child_pid := length (children w); child_name := name;
              child_args := args; child_inputs := inputs;
              child_inflight := running w |} in
  (c, set_children (fun l => l ++ [c]) w).

End Platform.

(** ** core/executor.js *)

Module Executor.
Import Platform.

Inductive SkipReason := already_running | paused.

(** The promise [executeJob] returns, as it stands when the call returns. *)
Inductive Dispatch :=
  | Skipped (reason : SkipReason)   (* resolved with { skipped: true, reason } *)
  | Rejected (e : Error)            (* rejected: the script file is missing,
                                       or the function threw *)
  | Started (c : Child).            (* pending on the child process *)

(** How a pending promise settles. *)
Inductive Settlement :=
  | Resolve (duration : option Z)   (* { success: true, duration } *)
  | Reject (e : Error).

(** Whether [JSON.stringify(value)] returns: it throws a TypeError for a
    BigInt, and gives [undefined] for [undefined]. *)
Definition stringifies (v : JsVal) : bool :=
  match v with
  | VBigInt _ => false
  | _ => true
  end.

(** [buildCommandArgs(scriptName, inputs)]; [None] when [JSON.stringify]
    throws for one of the values. *)
Definition buildCommandArgs (scriptName : string) (inputs : Obj) : option (list Arg) :=
  if forallb (fun p => stringifies (snd p)) inputs then
    Some (ArgWord "run" :: ArgWord scriptName
            :: map (fun p => ArgInput (fst p) (snd p)) inputs)
  else None.

(** [executeJob(name, job, customInputs, context)].  What is thrown after
    [running.set], by [buildCommandArgs] or by [spawn], rejects the promise
    at once: no handler is registered yet and nothing deletes the entry. *)
Definition executeJob (E : Env) (name : string) (job : Job) (customInputs : Obj)
    (w : World) : Dispatch * World :=
  if job_withoutOverlapping job && bool_decide (is_Some (running w !! name)) then
    (Skipped already_running, w)
  else if job_paused job then
    (Skipped paused, w)
  else
    let w := set_running (insert name (now w)) w in
    let inputs := spread (spread (spread [] (job_inputs job)) (job_scriptInputs job))
                    customInputs in
    let w := emit E (JobStart name inputs (now w)) w in
    match buildCommandArgs name inputs with
    | None => (Rejected ErrSerialize, w)
    | Some args =>
        if negb (script_exists E name) then
          let w := set_running (delete name) w in
          let error := ErrScriptNotFound name in
          let w := emit E (JobError name inputs error (Some 0) (now w)) w in
          (Rejected error, w)
        else
          match spawn_throws E args with
          | Some message => (Rejected (ErrSpawnThrown message), w)
          | None =>
              let (child, w) := spawn name args inputs w in
              (Started child, w)
          end
    end.

(** The handler of the child's 'exit' event. *)
Definition on_exit (E : Env) (c : Child) (code : option Z) (w : World)
  : Settlement * World :=
  let name := child_name c in
  let startTime := running w !! name in
  let duration := (fun s => now w - s) <$> startTime in
  let w := set_running (delete name) w in
  match code with
  | Some 0 =>
      let w := emit E (JobComplete name (child_inputs c) duration (now w)) w in
      (Resolve duration, w)
  | _ =>
      let error := ErrExitCode name code in
      let w := emit E (JobError name (child_inputs c) error duration (now w)) w in
      (Reject error, w)
  end.

(** The handler of the child's 'error' event. *)
Definition on_error (E : Env) (c : Child) (err : string) (w : World)
  : Settlement * World :=
  let name := child_name c in
  let startTime :=
    match running w !! name with
    | Some s => if s =? 0 then now w else s
    | None => now w
    end in
  let duration := Some (now w - startTime) in
  let w := set_running (delete name) w in
  let w := emit E (JobError name (child_inputs c) (ErrSpawn err) duration (now w)) w in
  (Reject (ErrSpawn err), w).

End Executor.

(** ** core/loader.js *)

Module Loader.

(** A script module of the scripts directory.  [script_inputs] gives, per
    declared input, its [defaultsTo] ([None] when it has none). *)
Record ScriptDef := {
  script_friendlyName : option string;
  script_description : option string;
  script_inputs : option (list (string * option JsVal));
  script_quest : option JobDef
}.

Definition extractScriptInputDefaults (inputs : option (list (string * option JsVal)))
  : Obj :=
  match inputs with
  | None => []
  | Some l =>
      fold_left
        (fun defaults p =>
           match snd p with
           | Some d => oset (fst p) d defaults
           | None => defaults
           end) l []
  end.

Definition or_else {A} (o : option A) (d : A) : A :=
  match o with Some a => a | None => d end.

(** [a ?? b] on optional values. *)
Definition nullish {A} (a b : option A) : option A :=
  match a with Some _ => a | None => b end.

(** [addJobDefinition(jobDef, jobs, config)]: the jobs table afterwards.
    A missing or empty name leaves it unchanged ([return null]). *)
Definition addJobDefinition (jobDef : JobDef) (jobs : list (string * Job))
    (config : Config) : list (string * Job) :=
  match def_name jobDef with
  | None => jobs
  | Some name =>
      if String.eqb name "" then jobs
      else
        let job :=
          {| job_name := name;
             job_friendlyName :=
               (if truthy_str (def_friendlyName jobDef)
                then or_else (def_friendlyName jobDef) name else name);
             job_description := def_description jobDef;
             job_interval := def_interval jobDef;
             job_timeout := def_timeout jobDef;
             job_cron := def_cron jobDef;
             job_cronValidate := def_cronValidate jobDef;
             job_date := def_date jobDef;
             job_inputs := or_else (def_inputs jobDef) [];
             job_scriptInputs := or_else (def_scriptInputs jobDef) [];
             job_paused := false;
             job_withoutOverlapping :=
               or_else (nullish (def_withoutOverlapping jobDef)
                          (cfg_withoutOverlapping config)) true |} in
        oset name job jobs
  end.

(** [{ name: jobDef }], the string shorthand of [config.jobs]. *)
Definition named (name : option string) : JobDef :=
  {| def_name := name; def_friendlyName := None; def_description := None;
     def_interval := VUndef; def_timeout := VUndef; def_cron := None;
     def_cronValidate := VUndef; def_date := None; def_inputs := None;
     def_scriptInputs := None; def_withoutOverlapping := None |}.

Definition with_scriptInputs (d : JobDef) (si : option Obj) : JobDef :=
  {| def_name := def_name d; def_friendlyName := def_friendlyName d;
     def_description := def_description d; def_interval := def_interval d;
     def_timeout := def_timeout d; def_cron := def_cron d;
     def_cronValidate := def_cronValidate d; def_date := def_date d;
     def_inputs := def_inputs d; def_scriptInputs := si;
     def_withoutOverlapping := def_withoutOverlapping d |}.

Inductive LoadResult :=
  | Loaded (jobs : list (string * Job))
  | LoadThrown (e : Error) (jobs : list (string * Job)).
      (* the promise rejects; the Map keeps what was set before the throw *)

Definition option_string_eqb (a b : option string) : bool :=
  match a, b with
  | Some x, Some y => String.eqb x y
  | None, None => true
  | _, _ => false
  end.

(** The loop over [config.jobs], with the set [configJobNames] of the names
    seen so far. *)
Fixpoint load_config_jobs (scripts : list (string * ScriptDef)) (config : Config)
    (defs : list (string + JobDef)) (configJobNames : list (option string))
    (jobs : list (string * Job)) : LoadResult :=
  match defs with
  | [] => Loaded jobs
  | jobDef :: rest =>
      let job := match jobDef with inl s => named (Some s) | inr d => d end in
      if existsb (option_string_eqb (def_name job)) configJobNames then
        LoadThrown (ErrDuplicateName (def_name job)) jobs
      else
        let configJobNames := def_name job :: configJobNames in
        let scriptDef := oget (or_else (def_name job) "undefined") scripts in
        let job :=
          match scriptDef, def_scriptInputs job with
          | Some sd, None =>
              with_scriptInputs job (Some (extractScriptInputDefaults (script_inputs sd)))
          | _, _ => job
          end in
        load_config_jobs scripts config rest configJobNames
          (addJobDefinition job jobs config)
  end.

(** [scriptFile.replace(/\.js$/, '')] *)
Definition strip_js (scriptFile : string) : string :=
  match rev (list_ascii_of_string scriptFile) with
  | s :: j :: dot :: r =>
      if Ascii.eqb s "s" && Ascii.eqb j "j" && Ascii.eqb dot "."
      then string_of_list_ascii (rev r) else scriptFile
  | _ => scriptFile
  end.

(** The job definition the second loop builds for a script with a [quest]
    property: the object literal with [...questConfig] spread over its first
    five keys. *)
Definition script_jobDef (scriptFile : string) (scriptDef : ScriptDef)
    (questConfig : JobDef) (jobs : list (string * Job)) : JobDef :=
  let scriptName := strip_js scriptFile in
  let jobName :=
    if truthy_str (def_name questConfig) then or_else (def_name questConfig) scriptName
    else scriptName in
  let scriptInputs := extractScriptInputDefaults (script_inputs scriptDef) in
  let existingJob := oget jobName jobs in
  {| def_name := nullish (def_name questConfig) (Some jobName);
     def_friendlyName :=
       nullish (def_friendlyName questConfig) (script_friendlyName scriptDef);
     def_description :=
       nullish (def_description questConfig) (script_description scriptDef);
     def_interval := def_interval questConfig;
     def_timeout := def_timeout questConfig;
     def_cron := def_cron questConfig;
     def_cronValidate := def_cronValidate questConfig;
     def_date := def_date questConfig;
     def_inputs :=
       nullish (def_inputs questConfig)
         (Some (spread [] (or_else (job_inputs <$> existingJob) [])));
     def_scriptInputs := Some scriptInputs;
     def_withoutOverlapping :=
       nullish (def_withoutOverlapping questConfig)
         (job_withoutOverlapping <$> existingJob) |}.

Fixpoint load_script_jobs (config : Config) (scripts : list (string * ScriptDef))
    (jobs : list (string * Job)) : list (string * Job) :=
  match scripts with
  | [] => jobs
  | (scriptFile, scriptDef) :: rest =>
      match script_quest scriptDef with
      | None => load_script_jobs config rest jobs
      | Some questConfig =>
          load_script_jobs config rest
            (addJobDefinition (script_jobDef scriptFile scriptDef questConfig jobs)
               jobs config)
      end
  end.

(** [loadJobs(config, jobs)]; [scripts] is what [includeAll] found (empty
    when the scripts directory is missing). *)
Definition loadJobs (scripts : list (string * ScriptDef)) (config : Config)
    (jobs : list (string * Job)) : LoadResult :=
  let first :=
    match cfg_jobs config with
    | Some defs => load_config_jobs scripts config defs [] jobs
    | None => Loaded jobs
    end in
  match first with
  | Loaded jobs => Loaded (load_script_jobs config scripts jobs)
  | LoadThrown e jobs => LoadThrown e jobs
  end.

(** [removeJob(name, jobs, timers)] *)
Definition removeJob (name : string) (w : World) : bool * World :=
  let w :=
    match timers w !! name with
    | Some timer =>
        set_timers (delete name)
          (Platform.clearInterval timer (Platform.clearTimeout timer w))
    | None => w
    end in
  let existed := Scheduler.is_some (oget name (jobs w)) in
  (existed, set_jobs (odelete name) w).

End Loader.

(** ** The context wiring of index.js *)

Module Context.

(** The descriptor synthesized for a name that is not registered:
    [{ name, withoutOverlapping: false, inputs: {} }]; its other fields are
    undefined, read as falsy or spread as nothing. *)
Definition minimalJob (name : string) : Job :=
  {| job_name := name; job_friendlyName := ""; job_description := None;
     job_interval := VUndef; job_timeout := VUndef; job_cron := None;
     job_cronValidate := VUndef; job_date := None;
     job_inputs := []; job_scriptInputs := [];
     job_paused := false; job_withoutOverlapping := false |}.

(** [context.executeJob(name, customInputs)]; an undefined [customInputs]
    takes the default [{}]. *)
Definition executeJob (E : Env) (name : string) (customInputs : option Obj)
    (w : World) : Executor.Dispatch * World :=
  let customInputs := Loader.or_else customInputs [] in
  match oget name (jobs w) with
  | None => Executor.executeJob E name (minimalJob name) customInputs w
  | Some job => Executor.executeJob E name job customInputs w
  end.

(** [context.getNextRunTime(job)] *)
Definition getNextRunTime (E : Env) (job : Job) (w : World) : Scheduler.Result :=
  Scheduler.getNextRunTime E job (now w).

End Context.

(** ** core/job-control.js *)

Module JobControl.
Import Platform.

(** A synchronous call either returns, or throws after some of its effects
    took place, or does not return within the given recursion budget. *)
Inductive Outcome :=
  | Done (w : World)
  | Thrown (e : Error) (w : World)
  | OutOfFuel.

Definition stopJob (name : string) (w : World) : World :=
  match timers w !! name with
  | Some timer =>
      set_timers (delete name) (clearInterval timer (clearTimeout timer w))
  | None => w
  end.

(** [job.interval || job.cron] as a condition. *)
Definition recurring (job : Job) : bool :=
  truthy (job_interval job) || truthy_str (job_cron job).

(** [scheduleJob(name, context)].  The recursion of the catch-up branch is
    bounded by [fuel]. *)
Fixpoint scheduleJob (E : Env) (fuel : nat) (name : string) (w : World) : Outcome :=
  match fuel with
  | O => OutOfFuel
  | S fuel =>
      match oget name (jobs w) with
      | None => Done w
      | Some job =>
          let w := stopJob name w in
          match Context.getNextRunTime E job w with
          | Scheduler.Throw e => Thrown e w
          | Scheduler.Return None => Done w
          | Scheduler.Return (Some nextRun) =>
              let delay := nextRun - now w in
              if delay <=? 0 then
                let w := snd (Context.executeJob E name None w) in
                if recurring job then scheduleJob E fuel name w else Done w
              else if MAX_SAFE_TIMEOUT <? delay then
                let (timer, w) := setTimeout (Recheck name) MAX_SAFE_TIMEOUT w in
                Done (set_timers (insert name timer) w)
              else
                let (timer, w) := setTimeout (Fire name job) delay w in
                Done (set_timers (insert name timer) w)
          end
      end
  end.

(** The [jobNames] argument of the batch operations. *)
Inductive JobNames :=
  | NoNames                      (* undefined or null *)
  | NameArray (names : list string)
  | OneName (name : string).

(** [!jobNames ? Array.from(jobs.keys()) : Array.isArray(jobNames) ? jobNames
    : [jobNames]] *)
Definition names_of (jobNames : JobNames) (w : World) : list string :=
  match jobNames with
  | NoNames => okeys (jobs w)
  | NameArray names => names
  | OneName name => if String.eqb name "" then okeys (jobs w) else [name]
  end.

(** [for (const name of names) scheduleJob(name)] *)
Fixpoint schedule_each (E : Env) (fuel : nat) (names : list string) (w : World)
  : Outcome :=
  match names with
  | [] => Done w
  | name :: rest =>
      match scheduleJob E fuel name w with
      | Done w => schedule_each E fuel rest w
      | other => other
      end
  end.

Definition startJobs (E : Env) (fuel : nat) (jobNames : JobNames) (w : World)
  : Outcome :=
  schedule_each E fuel (names_of jobNames w) w.

Definition stopJobs (jobNames : JobNames) (w : World) : World :=
  fold_left (fun w name => stopJob name w) (names_of jobNames w) w.

(** [names.map((name) => executeJob(name, inputs))]: the promises, in order. *)
Fixpoint run_each (E : Env) (names : list string) (inputs : option Obj) (w : World)
  : list Executor.Dispatch * World :=
  match names with
  | [] => ([], w)
  | name :: rest =>
      let (d, w) := Context.executeJob E name inputs w in
      let (ds, w) := run_each E rest inputs w in
      (d :: ds, w)
  end.

Definition runJobs (E : Env) (jobNames : JobNames) (inputs : option Obj) (w : World)
  : list Executor.Dispatch * World :=
  run_each E (names_of jobNames w) inputs w.

Definition with_paused (b : bool) (job : Job) : Job :=
  {| job_name := job_name job; job_friendlyName := job_friendlyName job;
     job_description := job_description job; job_interval := job_interval job;
     job_timeout := job_timeout job; job_cron := job_cron job;
     job_cronValidate := job_cronValidate job; job_date := job_date job;
     job_inputs := job_inputs job; job_scriptInputs := job_scriptInputs job;
     job_paused := b; job_withoutOverlapping := job_withoutOverlapping job |}.

Definition pauseJob (name : string) (w : World) : bool * World :=
  match oget name (jobs w) with
  | Some job => (true, set_jobs (oset name (with_paused true job)) w)
  | None => (false, w)
  end.

Definition resumeJob (name : string) (w : World) : bool * World :=
  match oget name (jobs w) with
  | Some job => (true, set_jobs (oset name (with_paused false job)) w)
  | None => (false, w)
  end.

End JobControl.

(** ** The hook: timer firings and the public API of index.js *)

Module Hook.
Import JobControl.

(** What a timer's closure does when the platform calls it. *)
Definition run_callback (E : Env) (fuel : nat) (cb : Callback) (w : World) : Outcome :=
  match cb with
  | Recheck name => scheduleJob E fuel name w
  | Fire name job =>
      let w := snd (Context.executeJob E name None w) in
      if recurring job then scheduleJob E fuel name w else Done w
  end.

(** The platform takes a due timer off its queue and runs its callback. *)
Definition fire (E : Env) (fuel : nat) (t : Timer) (w : World) : Outcome :=
  run_callback E fuel (timer_cb t)
    (set_pending (filter (fun x => timer_id x ≠ timer_id t)) w).

(** [sails.quest.add(jobDefs)], on the array form of its argument. *)
Fixpoint add (E : Env) (fuel : nat) (defs : list (string + JobDef)) (w : World)
  : Outcome :=
  match defs with
  | [] => Done w
  | def :: rest =>
      let job := match def with inl s => Loader.named (Some s) | inr d => d end in
      let w := set_jobs (fun jobs => Loader.addJobDefinition job jobs (config E)) w in
      let scheduled :=
        if cfg_autoStart (config E) then
          match def_name job with
          | Some name => scheduleJob E fuel name w
          | None => Done w
          end
        else Done w in
      match scheduled with
      | Done w => add E fuel rest w
      | other => other
      end
  end.

(** [sails.quest.remove(jobNames)]: the names removed, and the world. *)
Fixpoint remove (names : list string) (w : World) : list string * World :=
  match names with
  | [] => ([], w)
  | name :: rest =>
      let (existed, w) := Loader.removeJob name w in
      let (removed, w) := remove rest w in
      (if existed then name :: removed else removed, w)
  end.

(** The body run after hook:orm:loaded: load, then start everything when
    [autoStart] is set.  A throw of [loadJobs] rejects the whole callback. *)
Definition initialize (E : Env) (fuel : nat) (scripts : list (string * Loader.ScriptDef))
    (w : World) : Outcome :=
  match Loader.loadJobs scripts (config E) (jobs w) with
  | Loader.LoadThrown e jobs' => Thrown e (set_jobs (fun _ => jobs') w)
  | Loader.Loaded jobs' =>
      let w := set_jobs (fun _ => jobs') w in
      if cfg_autoStart (config E) then startJobs E fuel NoNames w else Done w
  end.

End Hook.


(** ** core/job-control.js before the timer bound was handled

    The earlier [scheduleJob] that the repository still carries: the same
    function without the [MAX_SAFE_TIMEOUT] branch, so that any positive
    delay goes to [setTimeout] as it is. *)

Module Legacy.
Import Platform JobControl.

Fixpoint scheduleJob (E : Env) (fuel : nat) (name : string) (w : World) : Outcome :=
  match fuel with
  | O => OutOfFuel
  | S fuel =>
      match oget name (jobs w) with
      | None => Done w
      | Some job =>
          let w := stopJob name w in
          match Context.getNextRunTime E job w with
          | Scheduler.Throw e => Thrown e w
          | Scheduler.Return None => Done w
          | Scheduler.Return (Some nextRun) =>
              let delay := nextRun - now w in
              if delay <=? 0 then
                let w := snd (Context.executeJob E name None w) in
                if recurring job then scheduleJob E fuel name w else Done w
              else
                let (timer, w) := setTimeout (Fire name job) delay w in
                Done (set_timers (insert name timer) w)
          end
      end
  end.

End Legacy.

(** ** machine-as-job.js: the inputs given to the machine *)

Module MachineAsJob.

(** [hasOwnProperty] on an object. *)
Definition hasOwnProperty (o : Obj) (k : string) : bool :=
  Scheduler.is_some (oget k o).

(** The object [inputsWithDefaults] that [executeJob] builds from the
    declared inputs of the machine definition ([None]: the definition has no
    [inputs]; per input, its [defaultsTo] when it has one) and the inputs
    the job was called with. *)
Definition inputsWithDefaults (inputs : option (list (string * option JsVal)))
    (jobInputs : Obj) : Obj :=
  match inputs with
  | None => []
  | Some declared =>
      fold_left
        (fun acc p =>
           let inputName := fst p in
           match oget inputName jobInputs with
           | Some v => oset inputName v acc
           | None =>
               match snd p with
               | Some d => oset inputName d acc
               | None => acc
               end
           end) declared []
  end.

(** [machineDef.friendlyName || 'unnamed-job'] *)
Definition jobName (friendlyName : option string) : string :=
  if truthy_str friendlyName then Loader.or_else friendlyName "unnamed-job"
  else "unnamed-job".

End MachineAsJob.
(** * Vocabulary of the properties *)

Import Executor JobControl.

(** The overlap check of [executeJob], by the state of the job and of the
    in-flight table when it is called. *)
Definition overlap_blocked (name : string) (job : Job) (w : World) : bool :=
  job_withoutOverlapping job && bool_decide (is_Some (running w !! name)).

Definition merged_inputs (job : Job) (customInputs : Obj) : Obj :=
  spread (spread (spread [] (job_inputs job)) (job_scriptInputs job)) customInputs.

(** The argument vector a dispatch with these inputs hands to [spawn] and
    gets a child for; [None] when [JSON.stringify] refuses an input or
    [spawn] throws. *)
Definition spawn_args (E : Env) (name : string) (inputs : Obj) : option (list Arg) :=
  match buildCommandArgs name inputs with
  | Some args =>
      match spawn_throws E args with
      | Some _ => None
      | None => Some args
      end
  | None => None
  end.

(** What a start leaves behind as long as nothing deletes the entry again:
    the name is in the in-flight table with the start instant, and the
    clock, the registry and the timer side are as before. *)
Definition start_frame (name : string) (w w' : World) : Prop :=
  running w' = <[name := now w]> (running w)
  /\ jobs w' = jobs w /\ timers w' = timers w /\ pending w' = pending w
  /\ next_timer w' = next_timer w /\ now w' = now w.

(** The two checks that turn a dispatch away, on a given descriptor. *)
Definition dispatch_skips_job (name : string) (job : Job) (w : World) : bool :=
  overlap_blocked name job w || job_paused job.

(** A dispatch of [name] that the overlap or the pause check turns away. *)
Definition dispatch_skips (name : string) (w : World) : bool :=
  match oget name (jobs w) with
  | Some job => dispatch_skips_job name job w
  | None => false
  end.

(** The world an outcome leaves behind, when the call came back. *)
Definition world_of (o : Outcome) : option World :=
  match o with
  | Done w => Some w
  | Thrown _ w => Some w
  | OutOfFuel => None
  end.

(** What [stopJob] and [setTimeout] keep: everything but the timer side. *)
Definition same_but_timers (w w' : World) : Prop :=
  now w' = now w /\ jobs w' = jobs w /\ running w' = running w
  /\ children w' = children w /\ events w' = events w.

(** ** Sample configurations, used to instantiate the statements *)

(** The world a call returned, or the empty one at instant 0. *)
Definition or_initial (o : Outcome) : World :=
  match o with
  | Done w => w
  | _ => initial 0
  end.

Module Sample.

Definition quest_config : Config :=
  {| cfg_autoStart := true; cfg_timezone := Some "UTC";
     cfg_withoutOverlapping := Some true; cfg_jobs := None |}.

(** An environment whose parsers know nothing and whose scripts directory
    holds exactly the script [report.js]. *)
Definition env : Env :=
  {| cron_next := fun _ _ _ => None;
     later_text := fun _ _ => LaterError;
     humanInterval := fun _ => None;
     script_exists := fun name => String.eqb name "report";
     spawn_throws := fun _ => None;
     global_sails := true;
     config := quest_config |}.

(** [{ name: 'report', inputs: { x: 0, y: 2 } }] *)
Definition report_def : JobDef :=
  {| def_name := Some "report"; def_friendlyName := None; def_description := None;
     def_interval := VUndef; def_timeout := VUndef; def_cron := None;
     def_cronValidate := VUndef; def_date := None;
     def_inputs := Some [("x", VNum 0); ("y", VNum 2)];
     def_scriptInputs := None; def_withoutOverlapping := None |}.

Definition report : Job :=
  {| job_name := "report"; job_friendlyName := "report"; job_description := None;
     job_interval := VUndef; job_timeout := VUndef; job_cron := None;
     job_cronValidate := VUndef; job_date := None;
     job_inputs := [("x", VNum 0); ("y", VNum 2)]; job_scriptInputs := [];
     job_paused := false; job_withoutOverlapping := true |}.

(** The hook at instant 1000 with the job [report] registered. *)
Definition registered : World :=
  set_jobs (fun jobs => Loader.addJobDefinition report_def jobs quest_config)
    (initial 1000).

(** The same while a run of [report] started at instant 400 is in flight. *)
Definition busy : World := set_running (insert "report" 400) registered.

(** The same with [report] paused. *)
Definition on_hold : World := snd (pauseJob "report" registered).

Definition busy_on_hold : World := snd (pauseJob "report" busy).


End Sample.

(** ** Loading: the declared names and the reading "a duplicate only costs
    the duplicate" *)

(** The name a [config.jobs] entry declares. *)
Definition declared_name (d : string + JobDef) : option string :=
  match d with
  | inl s => Some s
  | inr def => def_name def
  end.

Definition loaded_jobs (r : Loader.LoadResult) : list (string * Job) :=
  match r with
  | Loader.Loaded jobs => jobs
  | Loader.LoadThrown _ jobs => jobs
  end.

(** Every non-empty name declared in [config.jobs] is registered once the
    load is over, duplicates or not. *)
Definition every_declared_job_loaded (scripts : list (string * Loader.ScriptDef))
    (config : Config) : Prop :=
  forall defs name,
    cfg_jobs config = Some defs ->
    Some name ∈ map declared_name defs ->
    name <> "" ->
    is_Some (oget name (loaded_jobs (Loader.loadJobs scripts config []))).

Module SampleLoad.

(** [jobs: ['a', 'a', 'b']] *)
Definition twice_a : Config :=
  {| cfg_autoStart := true; cfg_timezone := Some "UTC";
     cfg_withoutOverlapping := Some true;
     cfg_jobs := Some [inl "a"; inl "a"; inl "b"] |}.

End SampleLoad.

(** ** Batch start *)

(** A descriptor that sets both a date and a timeout. *)
Definition conflicting (job : Job) : bool :=
  Scheduler.is_some (job_date job) && Scheduler.timeout_given (job_timeout job).

(** What the executor and the settlement handlers keep: the clock, the
    registry and the timer side. *)
Definition same_but_executions (w w' : World) : Prop :=
  now w' = now w /\ jobs w' = jobs w /\ timers w' = timers w
  /\ pending w' = pending w /\ next_timer w' = next_timer w.


Module SampleBatch.





End SampleBatch.

(** ** Timers of a job *)

(** The platform timers whose callback belongs to [name]. *)
Definition live_timers (name : string) (w : World) : list Timer :=
  filter (fun t => callback_name (timer_cb t) = name) (pending w).


Module SampleRecurring.

(** [{ name: 'report', interval: 1000 }] *)
Definition every_second_def : JobDef :=
  {| def_name := Some "report"; def_friendlyName := None; def_description := None;
     def_interval := VNum 1000; def_timeout := VUndef; def_cron := None;
     def_cronValidate := VUndef; def_date := None; def_inputs := None;
     def_scriptInputs := None; def_withoutOverlapping := None |}.

Definition every_second : Job :=
  {| job_name := "report"; job_friendlyName := "report"; job_description := None;
     job_interval := VNum 1000; job_timeout := VUndef; job_cron := None;
     job_cronValidate := VUndef; job_date := None;
     job_inputs := []; job_scriptInputs := [];
     job_paused := false; job_withoutOverlapping := true |}.

(** Instant 0: the job is registered and scheduled; its timer is due at 1000. *)
Definition armed : World :=
  or_initial
    (scheduleJob Sample.env 2 "report"
       (set_jobs (fun jobs => Loader.addJobDefinition every_second_def jobs
                                Sample.quest_config) (initial 0))).

Definition first_timer : Timer :=
  {| timer_id := 0; timer_due := 1000; timer_cb := Fire "report" every_second |}.




End SampleRecurring.

(** ** An ideal platform, to follow a schedule through time *)

(** The live timer that is due first (the older one among equals). *)
Fixpoint earliest (q : list Timer) : option Timer :=
  match q with
  | [] => None
  | t :: q' =>
      match earliest q' with
      | Some t' => if timer_due t' <? timer_due t then Some t' else Some t
      | None => Some t
      end
  end.

(** Time passes until the earliest timer is due, and that timer fires on
    time.  [None] when nothing is armed or the callback does not return. *)
Definition next_event (E : Env) (fuel : nat) (w : World) : option World :=
  match earliest (pending w) with
  | None => None
  | Some t => world_of (Hook.fire E fuel t (set_now (Z.max (timer_due t)) w))
  end.

Fixpoint after_events (E : Env) (fuel : nat) (n : nat) (w : World) : option World :=
  match n with
  | O => Some w
  | S n =>
      match next_event E fuel w with
      | Some w' => after_events E fuel n w'
      | None => None
      end
  end.

(** The world in which the only job, [name], is waiting behind its [k]-th
    intermediate timer, [k] bounds after it was scheduled at instant [t0],
    and has never run. *)
Definition chained (name : string) (job : Job) (t0 : Z) (k : nat) : World :=
  {| now := t0 + Z.of_nat k * MAX_SAFE_TIMEOUT;
     jobs := [(name, job)];
     timers := {[name := k]};
     running := ∅;
     pending := [{| timer_id := k;
                   timer_due := t0 + (Z.of_nat k + 1) * MAX_SAFE_TIMEOUT;
                   timer_cb := Recheck name |}];
     next_timer := S k;
     children := [];
     events := [] |}.

Module SampleMonthly.

(** Thirty days, in milliseconds. *)
Definition thirty_days : Z := 2592000000.

(** [{ name: 'report', interval: 2592000000 }] *)
Definition monthly_def : JobDef :=
  {| def_name := Some "report"; def_friendlyName := None; def_description := None;
     def_interval := VNum thirty_days; def_timeout := VUndef; def_cron := None;
     def_cronValidate := VUndef; def_date := None; def_inputs := None;
     def_scriptInputs := None; def_withoutOverlapping := None |}.

Definition monthly : Job :=
  {| job_name := "report"; job_friendlyName := "report"; job_description := None;
     job_interval := VNum thirty_days; job_timeout := VUndef; job_cron := None;
     job_cronValidate := VUndef; job_date := None;
     job_inputs := []; job_scriptInputs := [];
     job_paused := false; job_withoutOverlapping := true |}.

(** Instant 0: the job is registered and scheduled. *)
Definition armed : World :=
  or_initial
    (scheduleJob Sample.env 1 "report"
       (set_jobs (fun jobs => Loader.addJobDefinition monthly_def jobs
                                Sample.quest_config) (initial 0))).

End SampleMonthly.

(** ** The timer table and the platform's timers *)

(** Live timers have distinct handles below the next handle to be handed
    out, and each is the one the timer table records for its job. *)
Definition timers_consistent (w : World) : Prop :=
  NoDup (timer_id <$> pending w)
  /\ (forall t, t ∈ pending w -> (timer_id t < next_timer w)%nat)
  /\ (forall t, t ∈ pending w ->
        timers w !! callback_name (timer_cb t) = Some (timer_id t)).

(** Everything that can happen to the hook: the wall clock changing, a
    live timer firing, a child settling, a call of the public API.  A call
    that throws leaves the world it had reached.  The wall clock can be set
    back as well as forth, and the platform keeps its timers on a clock of
    its own: a live timer can fire whatever the wall clock shows. *)
Inductive step (E : Env) : World -> World -> Prop :=
  | step_tick w t :
      step E w (set_now (fun _ => t) w)
  | step_fire w t fuel w' :
      t ∈ pending w ->
      world_of (Hook.fire E fuel t w) = Some w' -> step E w w'
  | step_exit w c code :
      c ∈ children w -> step E w (snd (on_exit E c code w))
  | step_error w c err :
      c ∈ children w -> step E w (snd (on_error E c err w))
  | step_initialize w scripts fuel w' :
      world_of (Hook.initialize E fuel scripts w) = Some w' -> step E w w'
  | step_start w names fuel w' :
      world_of (startJobs E fuel names w) = Some w' -> step E w w'
  | step_stop w names :
      step E w (stopJobs names w)
  | step_run w names inputs :
      step E w (snd (runJobs E names inputs w))
  | step_add w defs fuel w' :
      world_of (Hook.add E fuel defs w) = Some w' -> step E w w'
  | step_remove w names :
      step E w (snd (Hook.remove names w))
  | step_pause w name :
      step E w (snd (pauseJob name w))
  | step_resume w name :
      step E w (snd (resumeJob name w)).

Definition reachable (E : Env) (w : World) : Prop :=
  exists t0, rtc (step E) (initial t0) w.

(** ** Interval texts *)

(** The units of the "every N unit" pattern as the table of [parseInterval]
    resolves them, with their length in milliseconds. *)
Definition every_units : list (string * Z) :=
  [("second", 1000); ("seconds", 1000); ("minute", 60000); ("minutes", 60000);
   ("hour", 3600000); ("hours", 3600000); ("day", 86400000); ("days", 86400000)].

(** A run of characters that all satisfy [p], at least one of them. *)
Definition run_of (p : ascii -> bool) (l : list ascii) : Prop :=
  l <> [] /\ forallb p l = true.

Module SampleText.

(** An environment whose human-interval parser knows "5 seconds" and
    whose cron parser knows the hourly expression on the UTC grid. *)
Definition env : Env :=
  {| cron_next := fun expr tz clock =>
       if String.eqb expr "0 * * * *"
       then Some ((clock / 3600000 + 1) * 3600000) else None;
     later_text := fun _ _ => LaterError;
     humanInterval := fun s => if String.eqb s "5 seconds" then Some 5000 else None;
     script_exists := fun name => String.eqb name "report";
     spawn_throws := fun _ => None;
     global_sails := true;
     config := Sample.quest_config |}.

(** [{ name: 'report', cron: '0 * * * *', interval: 1000 }] *)
Definition hourly : Job :=
  {| job_name := "report"; job_friendlyName := "report"; job_description := None;
     job_interval := VNum 1000; job_timeout := VUndef; job_cron := Some "0 * * * *";
     job_cronValidate := VUndef; job_date := None;
     job_inputs := []; job_scriptInputs := [];
     job_paused := false; job_withoutOverlapping := true |}.

(** [{ name: 'report', date: <instant 5000> }] *)
Definition dated : Job :=
  {| job_name := "report"; job_friendlyName := "report"; job_description := None;
     job_interval := VUndef; job_timeout := VUndef; job_cron := None;
     job_cronValidate := VUndef; job_date := Some 5000;
     job_inputs := []; job_scriptInputs := [];
     job_paused := false; job_withoutOverlapping := true |}.

End SampleText.

Module SampleSchedule.

(** The job of [SampleText.dated] registered, at instant 6000: its date,
    5000, is past. *)
Definition late : World :=
  set_now (fun _ => 6000)
    (set_jobs (fun jobs => oset "report" SampleText.dated jobs) (initial 0)).





(** [{ name: 'report', date: <instant 5000000000> }], registered at 0. *)
Definition far : Job :=
  {| job_name := "report"; job_friendlyName := "report"; job_description := None;
     job_interval := VUndef; job_timeout := VUndef; job_cron := None;
     job_cronValidate := VUndef; job_date := Some 5000000000;
     job_inputs := []; job_scriptInputs := [];
     job_paused := false; job_withoutOverlapping := true |}.

Definition with_far : World :=
  set_jobs (fun jobs => oset "report" far jobs) (initial 0).

End SampleSchedule.

(** ** Executions *)

Module SampleOverlap.

(** [report] with overlapping runs allowed. *)
Definition free : Job :=
  {| job_name := "report"; job_friendlyName := "report"; job_description := None;
     job_interval := VUndef; job_timeout := VUndef; job_cron := None;
     job_cronValidate := VUndef; job_date := None;
     job_inputs := []; job_scriptInputs := [];
     job_paused := false; job_withoutOverlapping := false |}.

End SampleOverlap.

Module SampleRun.

(** Instant 1000: the timer of [SampleRecurring.armed] is due. *)
Definition due : World := set_now (fun _ => 1000) SampleRecurring.armed.

(** The timer has fired: the run of [report] has started. *)
Definition started : World :=
  or_initial (Hook.fire Sample.env 2 SampleRecurring.first_timer due).

(** Instant 1500: the run is still in flight. *)
Definition in_flight : World := set_now (fun _ => 1500) started.

End SampleRun.

(** ** The registry *)

(** Every registered job sits under its own, non-empty name, and no name
    comes twice. *)
Definition registry_ok (jobs : list (string * Job)) : Prop :=
  NoDup (okeys jobs)
  /\ forall name job, oget name jobs = Some job -> job_name job = name /\ name <> "".

Module SampleScripts.

(** The script [report.js]: an input [daysOld] with default 30, an input
    [dryRun] without default, and a [quest] property that sets a cron
    expression and inputs of its own. *)
Definition report_quest : JobDef :=
  {| def_name := None; def_friendlyName := None; def_description := None;
     def_interval := VUndef; def_timeout := VUndef; def_cron := Some "0 * * * *";
     def_cronValidate := VUndef; def_date := None;
     def_inputs := Some [("limit", VNum 10)];
     def_scriptInputs := None; def_withoutOverlapping := None |}.

Definition report_script : Loader.ScriptDef :=
  {| Loader.script_friendlyName := Some "Report";
     Loader.script_description := None;
     Loader.script_inputs := Some [("daysOld", Some (VNum 30)); ("dryRun", None)];
     Loader.script_quest := Some report_quest |}.

(** An entry of [config.jobs]: the job [report] every second, overlap
    allowed, with a base input. *)
Definition report_config_def : JobDef :=
  {| def_name := Some "report"; def_friendlyName := None; def_description := None;
     def_interval := VNum 1000; def_timeout := VUndef; def_cron := None;
     def_cronValidate := VUndef; def_date := None;
     def_inputs := Some [("url", VStr "https://example.com")];
     def_scriptInputs := None; def_withoutOverlapping := Some false |}.

Definition quest_config : Config :=
  {| cfg_autoStart := true; cfg_timezone := Some "UTC";
     cfg_withoutOverlapping := Some true;
     cfg_jobs := Some [inr report_config_def; inl "cleanup"] |}.

(** The job that entry registers. *)
Definition report_config_job : Job :=
  {| job_name := "report"; job_friendlyName := "report"; job_description := None;
     job_interval := VNum 1000; job_timeout := VUndef; job_cron := None;
     job_cronValidate := VUndef; job_date := None;
     job_inputs := [("url", VStr "https://example.com")]; job_scriptInputs := [];
     job_paused := false; job_withoutOverlapping := false |}.

End SampleScripts.
(** * Properties *)

(** ** Ordered tables *)

Section ordered_table_facts.
Context {A : Type}.
Implicit Types (m dst src : list (string * A)) (k : string) (v : A).

Lemma oget_oset_eq m k v : oget k (oset k v m) = Some v.
Proof.
  induction m as [|[k' v'] m IH]; simpl.
  - by rewrite String.eqb_refl.
  - destruct (String.eqb k k') eqn:Hk; simpl.
    + by rewrite String.eqb_refl.
    + by rewrite Hk.
Qed.

Lemma oget_oset_ne m k k' v : k ≠ k' -> oget k' (oset k v m) = oget k' m.
Proof.
  intros Hne. induction m as [|[k0 v0] m IH]; simpl.
  - destruct (String.eqb k' k) eqn:Hk; [|done].
    apply String.eqb_eq in Hk. congruence.
  - destruct (String.eqb k k0) eqn:Hk; simpl.
    + apply String.eqb_eq in Hk. subst k0.
      destruct (String.eqb k' k) eqn:Hk'; [|done].
      apply String.eqb_eq in Hk'. congruence.
    + by rewrite IH.
Qed.

Lemma oget_oset m k k' v :
  oget k' (oset k v m) = if String.eqb k' k then Some v else oget k' m.
Proof.
  destruct (String.eqb k' k) eqn:Hk.
  - apply String.eqb_eq in Hk. subst. apply oget_oset_eq.
  - apply String.eqb_neq in Hk. by apply oget_oset_ne.
Qed.

Lemma okeys_oset_present m k v :
  is_Some (oget k m) -> okeys (oset k v m) = okeys m.
Proof.
  induction m as [|[k' v'] m IH]; simpl; intros [x Hx]; [done|].
  destruct (String.eqb k k') eqn:Hk; simpl.
  - apply String.eqb_eq in Hk. by subst.
  - f_equal. apply IH. eauto.
Qed.

Lemma okeys_oset_absent m k v :
  oget k m = None -> okeys (oset k v m) = okeys m ++ [k].
Proof.
  induction m as [|[k' v'] m IH]; simpl; intros Hx; [done|].
  destruct (String.eqb k k') eqn:Hk; [done|]. simpl. f_equal. by apply IH.
Qed.

Lemma oget_None_not_in m k : oget k m = None <-> k ∉ okeys m.
Proof.
  induction m as [|[k' v'] m IH]; simpl.
  - split; [intros _; apply not_elem_of_nil | done].
  - rewrite not_elem_of_cons. destruct (String.eqb k k') eqn:Hk.
    + apply String.eqb_eq in Hk. subst. split; [done | by intros [? _]].
    + apply String.eqb_neq in Hk. rewrite IH. tauto.
Qed.

Lemma oget_odelete_eq m k : oget k (odelete k m) = None.
Proof.
  induction m as [|[k' v'] m IH]; simpl; [done|].
  destruct (String.eqb k k') eqn:Hk; simpl; [done|]. by rewrite Hk.
Qed.

Lemma oget_app m1 m2 k :
  oget k (m1 ++ m2)
  = match oget k m1 with Some v => Some v | None => oget k m2 end.
Proof.
  induction m1 as [|[k' v'] m1 IH]; simpl; [done|].
  by destruct (String.eqb k k').
Qed.

Lemma oget_filter_in (P : string -> bool) m k :
  P k = true -> oget k (List.filter (fun p => P (fst p)) m) = oget k m.
Proof.
  intros Hk. induction m as [|[k' v'] m IH]; simpl; [done|].
  destruct (String.eqb k k') eqn:Heq.
  - apply String.eqb_eq in Heq. subst k'. rewrite Hk. simpl.
    by rewrite String.eqb_refl.
  - destruct (P k'); simpl; [by rewrite Heq | done].
Qed.

Lemma oget_filter_out (P : string -> bool) m k :
  P k = false -> oget k (List.filter (fun p => P (fst p)) m) = None.
Proof.
  intros Hk. induction m as [|[k' v'] m IH]; simpl; [done|].
  destruct (P k') eqn:Hk'; simpl; [|done].
  destruct (String.eqb k k') eqn:Heq; [|done].
  apply String.eqb_eq in Heq. congruence.
Qed.

(** ** The order of an object's own properties *)

Lemma oget_insert_by_index k' v' m k :
  oget k (insert_by_index (k', v') m)
  = if String.eqb k k' then Some v' else oget k m.
Proof.
  induction m as [|[k0 v0] m IH]; simpl; [done|].
  destruct (index_of k' <=? index_of k0)%N eqn:Hle; simpl; [done|].
  rewrite IH. destruct (String.eqb k k0) eqn:H0; [|done].
  destruct (String.eqb k k') eqn:H1; [|done].
  apply String.eqb_eq in H0, H1. subst k0 k'.
  apply N.leb_gt in Hle. lia.
Qed.

Lemma oget_by_index m k : oget k (fold_right insert_by_index [] m) = oget k m.
Proof.
  induction m as [|[k' v'] m IH]; simpl; [done|].
  by rewrite oget_insert_by_index, IH.
Qed.

(** Listing an object in the order of its own properties changes no
    lookup. *)
Lemma oget_own_order m k : oget k (own_order m) = oget k m.
Proof.
  unfold own_order. rewrite oget_app, oget_by_index.
  destruct (is_index k) eqn:Hk.
  - rewrite (oget_filter_in is_index) by done.
    rewrite (oget_filter_out (fun k => negb (is_index k))) by (by rewrite Hk).
    by destruct (oget k m).
  - rewrite (oget_filter_out is_index) by done.
    apply (oget_filter_in (fun k => negb (is_index k))). by rewrite Hk.
Qed.

Lemma insert_by_index_perm p m : insert_by_index p m ≡ₚ p :: m.
Proof.
  induction m as [|q m IH]; simpl; [done|].
  destruct (index_of (fst p) <=? index_of (fst q))%N; [done|].
  rewrite IH. apply Permutation_swap.
Qed.

Lemma by_index_perm m : fold_right insert_by_index [] m ≡ₚ m.
Proof.
  induction m as [|p m IH]; simpl; [done|].
  by rewrite insert_by_index_perm, IH.
Qed.

Lemma filter_split_perm (P : string * A -> bool) m :
  List.filter P m ++ List.filter (fun p => negb (P p)) m ≡ₚ m.
Proof.
  induction m as [|p m IH]; simpl; [done|].
  destruct (P p); simpl.
  - by rewrite IH.
  - rewrite <- Permutation_middle. by rewrite IH.
Qed.

Lemma own_order_perm m : own_order m ≡ₚ m.
Proof.
  unfold own_order. rewrite by_index_perm.
  apply (filter_split_perm (fun p => is_index (fst p))).
Qed.

Lemma okeys_own_order m : okeys (own_order m) ≡ₚ okeys m.
Proof. unfold okeys. apply Permutation_map, own_order_perm. Qed.

(** An object whose keys are no array indices is listed as it was
    built. *)
Lemma own_order_plain m :
  forallb (fun p => negb (is_index (fst p))) m = true -> own_order m = m.
Proof.
  unfold own_order. intros Hall.
  assert (List.filter (fun p => is_index (fst p)) m = []) as ->.
  { induction m as [|p m IH]; simpl in *; [done|].
    apply andb_true_iff in Hall as [Hp Hall].
    apply negb_true_iff in Hp. rewrite Hp. by apply IH. }
  simpl. induction m as [|p m IH]; simpl in *; [done|].
  apply andb_true_iff in Hall as [Hp Hall]. rewrite Hp. f_equal. by apply IH.
Qed.

(** The last binding of a key in a list of entries, which is what a
    spread of these entries leaves. *)
Lemma oget_spread_snoc dst src k v k' :
  oget k' (spread dst (src ++ [(k, v)]))
  = if String.eqb k' k then Some v else oget k' (spread dst src).
Proof.
  unfold spread. rewrite !oget_own_order, fold_left_app. simpl. apply oget_oset.
Qed.

Lemma oget_assigned dst src k :
  NoDup (okeys src) ->
  oget k (fold_left (fun acc p => oset (fst p) (snd p) acc) src dst)
  = match oget k src with Some v => Some v | None => oget k dst end.
Proof.
  revert dst. induction src as [|[k' v'] src IH]; intros dst Hnd; [done|].
  apply NoDup_cons in Hnd as [Hnotin Hnd]. simpl.
  rewrite IH by done.
  destruct (String.eqb k k') eqn:Hk.
  - apply String.eqb_eq in Hk. subst k'.
    assert (oget k src = None) as -> by (by apply oget_None_not_in).
    apply oget_oset_eq.
  - apply String.eqb_neq in Hk.
    destruct (oget k src); [done|]. apply oget_oset_ne. congruence.
Qed.

(** Lookup in [{ ...dst, ...src }] for a source with distinct keys. *)
Lemma oget_spread dst src k :
  NoDup (okeys src) ->
  oget k (spread dst src)
  = match oget k src with Some v => Some v | None => oget k dst end.
Proof. intros Hnd. unfold spread. rewrite oget_own_order. by apply oget_assigned. Qed.

Lemma okeys_oset_elem m k k' v :
  k' ∈ okeys (oset k v m) <-> k' = k \/ k' ∈ okeys m.
Proof.
  destruct (oget k m) eqn:Hget.
  - rewrite okeys_oset_present by eauto. split; [by right|].
    intros [->|?]; [|done].
    destruct (decide (k ∈ okeys m)) as [?|Hn]; [done|].
    apply oget_None_not_in in Hn. congruence.
  - rewrite okeys_oset_absent by done. rewrite elem_of_app, list_elem_of_singleton.
    tauto.
Qed.

Lemma okeys_oset_NoDup m k v :
  NoDup (okeys m) -> NoDup (okeys (oset k v m)).
Proof.
  intros Hnd. destruct (oget k m) eqn:Hget.
  - by rewrite okeys_oset_present by eauto.
  - rewrite okeys_oset_absent by done. apply NoDup_app. split; [done|].
    split; [|apply NoDup_singleton].
    intros x Hx ->%list_elem_of_singleton. by apply oget_None_not_in in Hget.
Qed.

Lemma elem_of_oset m k v (p : string * A) :
  p ∈ oset k v m -> p = (k, v) \/ p ∈ m.
Proof.
  induction m as [|[k0 v0] m IH]; simpl.
  - intros ->%list_elem_of_singleton. by left.
  - destruct (String.eqb k k0).
    + intros [->|Hin]%elem_of_cons; [by left|]. right. by right.
    + intros [->|Hin]%elem_of_cons; [right; by left|].
      destruct (IH Hin) as [->|?]; [by left|]. right. by right.
Qed.

Lemma okeys_spread_NoDup dst src :
  NoDup (okeys dst) -> NoDup (okeys (spread dst src)).
Proof.
  unfold spread. rewrite okeys_own_order.
  revert dst. induction src as [|[k v] src IH]; intros dst Hnd; [done|].
  apply (IH (oset k v dst)). by apply okeys_oset_NoDup.
Qed.

Lemma okeys_spread_elem dst src k :
  k ∈ okeys (spread dst src) <-> k ∈ okeys dst \/ k ∈ okeys src.
Proof.
  unfold spread. rewrite okeys_own_order.
  revert dst. induction src as [|[k' v] src IH]; intros dst.
  - simpl. split; [by left|]. by intros [?|?%elem_of_nil].
  - simpl. rewrite IH, okeys_oset_elem. simpl. rewrite elem_of_cons. tauto.
Qed.

(** A spread holds no entry that neither of its operands has. *)
Lemma elem_of_spread dst src (p : string * A) :
  p ∈ spread dst src -> p ∈ dst \/ p ∈ src.
Proof.
  unfold spread. rewrite own_order_perm.
  revert dst. induction src as [|[k v] src IH]; intros dst; simpl; [by left|].
  intros [Hin|Hin]%IH.
  - apply elem_of_oset in Hin as [->|?]; [right; by left | by left].
  - right. by right.
Qed.
End ordered_table_facts.

(** ** World setters commute with the projections *)

Ltac world_simpl :=
  repeat (cbn [now jobs timers running pending next_timer children events
               set_now set_jobs set_timers set_running set_pending
               set_next_timer set_children set_events fst snd] in *).

Ltac world_norm :=
  cbv [set_now set_jobs set_timers set_running set_pending set_next_timer
       set_children set_events];
  cbn [now jobs timers running pending next_timer children events fst snd].

Lemma emit_running E ev w : running (Platform.emit E ev w) = running w.
Proof. unfold Platform.emit. by destruct (global_sails E). Qed.

Lemma emit_children E ev w : children (Platform.emit E ev w) = children w.
Proof. unfold Platform.emit. by destruct (global_sails E). Qed.

Lemma emit_now E ev w : now (Platform.emit E ev w) = now w.
Proof. unfold Platform.emit. by destruct (global_sails E). Qed.

Lemma emit_jobs E ev w : jobs (Platform.emit E ev w) = jobs w.
Proof. unfold Platform.emit. by destruct (global_sails E). Qed.

Lemma emit_timers E ev w : timers (Platform.emit E ev w) = timers w.
Proof. unfold Platform.emit. by destruct (global_sails E). Qed.

Lemma emit_pending E ev w : pending (Platform.emit E ev w) = pending w.
Proof. unfold Platform.emit. by destruct (global_sails E). Qed.

Lemma emit_next_timer E ev w : next_timer (Platform.emit E ev w) = next_timer w.
Proof. unfold Platform.emit. by destruct (global_sails E). Qed.

Create Rewrite HintDb world.
#[global] Hint Rewrite emit_running emit_children emit_now emit_jobs emit_timers
  emit_pending emit_next_timer : world.

(** ** The executor *)

Lemma executeJob_blocked E name job custom w :
  overlap_blocked name job w = true ->
  Executor.executeJob E name job custom w = (Executor.Skipped Executor.already_running, w).
Proof. unfold overlap_blocked, Executor.executeJob. by intros ->. Qed.

Lemma executeJob_paused E name job custom w :
  overlap_blocked name job w = false ->
  job_paused job = true ->
  Executor.executeJob E name job custom w = (Executor.Skipped Executor.paused, w).
Proof. unfold overlap_blocked, Executor.executeJob. by intros -> ->. Qed.

Lemma buildCommandArgs_Some name inputs args :
  buildCommandArgs name inputs = Some args ->
  args = ArgWord "run" :: ArgWord name
           :: map (fun p => ArgInput (fst p) (snd p)) inputs
  /\ forallb (fun p => stringifies (snd p)) inputs = true.
Proof.
  unfold buildCommandArgs. destruct (forallb _ inputs); [|done].
  by intros [= <-].
Qed.

Lemma buildCommandArgs_stringifies name inputs :
  (forall k v, (k, v) ∈ inputs -> stringifies v = true) ->
  buildCommandArgs name inputs
  = Some (ArgWord "run" :: ArgWord name
            :: map (fun p => ArgInput (fst p) (snd p)) inputs).
Proof.
  intros Hall. unfold buildCommandArgs.
  assert (forallb (fun p => stringifies (snd p)) inputs = true) as ->; [|done].
  apply forallb_forall. intros [k v] Hin. apply (Hall k v).
  by apply list_elem_of_In.
Qed.

Lemma buildCommandArgs_None name inputs :
  buildCommandArgs name inputs = None
  <-> exists k n, (k, VBigInt n) ∈ inputs.
Proof.
  unfold buildCommandArgs. split.
  - destruct (forallb _ inputs) eqn:Hall; [done|]. intros _.
    induction inputs as [|[k v] inputs IH]; simpl in Hall; [done|].
    apply andb_false_iff in Hall as [Hv|Hall].
    + destruct v; try done. exists k, n. left.
    + destruct (IH Hall) as (k' & n & Hin). exists k', n. by right.
  - intros (k & n & Hin).
    assert (forallb (fun p => stringifies (snd p)) inputs = false) as ->; [|done].
    apply not_true_is_false. intros Hall.
    apply list_elem_of_In in Hin.
    by apply (proj1 (forallb_forall _ _) Hall) in Hin.
Qed.

Lemma executeJob_unserializable E name job custom w :
  overlap_blocked name job w = false ->
  job_paused job = false ->
  buildCommandArgs name (merged_inputs job custom) = None ->
  exists w',
    Executor.executeJob E name job custom w = (Executor.Rejected ErrSerialize, w')
    /\ children w' = children w
    /\ start_frame name w w'.
Proof.
  unfold overlap_blocked, Executor.executeJob, merged_inputs, start_frame.
  intros -> -> ->. simpl. eexists. split; [reflexivity|].
  autorewrite with world. by world_simpl.
Qed.

Lemma executeJob_missing E name job custom args w :
  overlap_blocked name job w = false ->
  job_paused job = false ->
  buildCommandArgs name (merged_inputs job custom) = Some args ->
  script_exists E name = false ->
  exists w',
    Executor.executeJob E name job custom w
      = (Executor.Rejected (ErrScriptNotFound name), w')
    /\ running w' = delete name (running w)
    /\ children w' = children w
    /\ jobs w' = jobs w /\ timers w' = timers w /\ pending w' = pending w
    /\ next_timer w' = next_timer w /\ now w' = now w.
Proof.
  unfold overlap_blocked, Executor.executeJob, merged_inputs.
  intros -> -> -> ->. simpl.
  eexists. split; [reflexivity|].
  autorewrite with world. world_simpl. autorewrite with world. world_simpl.
  by rewrite delete_insert_eq.
Qed.

Lemma executeJob_spawn_throws E name job custom args message w :
  overlap_blocked name job w = false ->
  job_paused job = false ->
  buildCommandArgs name (merged_inputs job custom) = Some args ->
  script_exists E name = true ->
  spawn_throws E args = Some message ->
  exists w',
    Executor.executeJob E name job custom w
      = (Executor.Rejected (ErrSpawnThrown message), w')
    /\ children w' = children w
    /\ start_frame name w w'.
Proof.
  unfold overlap_blocked, Executor.executeJob, merged_inputs, start_frame.
  intros -> -> -> -> ->. simpl. eexists. split; [reflexivity|].
  autorewrite with world. by world_simpl.
Qed.

Lemma executeJob_started E name job custom args w :
  overlap_blocked name job w = false ->
  job_paused job = false ->
  buildCommandArgs name (merged_inputs job custom) = Some args ->
  script_exists E name = true ->
  spawn_throws E args = None ->
  exists c w',
    Executor.executeJob E name job custom w = (Executor.Started c, w')
    /\ c = {| child_pid := length (children w); child_name := name;
              child_args := args;
              child_inputs := merged_inputs job custom;
              child_inflight := <[name := now w]> (running w) |}
    /\ running w' = <[name := now w]> (running w)
    /\ children w' = children w ++ [c]
    /\ jobs w' = jobs w /\ timers w' = timers w /\ pending w' = pending w
    /\ next_timer w' = next_timer w /\ now w' = now w.
Proof.
  unfold overlap_blocked, Executor.executeJob, merged_inputs.
  intros -> -> -> -> ->. simpl.
  unfold Platform.spawn. do 2 eexists. split; [reflexivity|].
  world_simpl. autorewrite with world. world_simpl. done.
Qed.

Lemma spawn_args_Some E name inputs args :
  spawn_args E name inputs = Some args
  <-> buildCommandArgs name inputs = Some args /\ spawn_throws E args = None.
Proof.
  unfold spawn_args. destruct (buildCommandArgs name inputs) as [a|].
  - destruct (spawn_throws E a) eqn:Hs.
    + split; [done|]. intros [[= ->] Hn]. congruence.
    + split; [by intros [= ->]|]. by intros [[= ->] _].
  - split; [done|]. by intros [? _].
Qed.

(** A start that throws: the promise is rejected, no child exists and the
    entry made at the start stays in the in-flight table. *)
Lemma executeJob_thrown E name job custom w :
  overlap_blocked name job w = false ->
  job_paused job = false ->
  script_exists E name = true ->
  spawn_args E name (merged_inputs job custom) = None ->
  exists e w',
    Executor.executeJob E name job custom w = (Executor.Rejected e, w')
    /\ children w' = children w
    /\ start_frame name w w'.
Proof.
  intros Hb Hp Hs Ha. unfold spawn_args in Ha.
  destruct (buildCommandArgs name (merged_inputs job custom)) as [args|] eqn:Hargs.
  - destruct (spawn_throws E args) as [message|] eqn:Hsp; [|done].
    destruct (executeJob_spawn_throws E name job custom args message w)
      as (w' & Hex & H); [done..|]. by exists (ErrSpawnThrown message), w'.
  - destruct (executeJob_unserializable E name job custom w)
      as (w' & Hex & H); [done..|]. by exists ErrSerialize, w'.
Qed.

(** ** Dispatch through the context *)

Lemma context_executeJob_registered E name job custom w :
  oget name (jobs w) = Some job ->
  Context.executeJob E name custom w
  = Executor.executeJob E name job (Loader.or_else custom []) w.
Proof. unfold Context.executeJob. by intros ->. Qed.


Lemma dispatch_skips_unchanged E name custom w :
  dispatch_skips name w = true ->
  snd (Context.executeJob E name custom w) = w.
Proof.
  unfold dispatch_skips. destruct (oget name (jobs w)) as [job|] eqn:Hjob; [|done].
  rewrite (context_executeJob_registered _ _ job) by done.
  unfold dispatch_skips_job.
  destruct (overlap_blocked name job w) eqn:Hb; simpl; intros Hp.
  - by rewrite executeJob_blocked.
  - by rewrite executeJob_paused.
Qed.

Lemma same_but_timers_refl w : same_but_timers w w.
Proof. by repeat split. Qed.

Lemma same_but_timers_trans w1 w2 w3 :
  same_but_timers w1 w2 -> same_but_timers w2 w3 -> same_but_timers w1 w3.
Proof. unfold same_but_timers. intuition congruence. Qed.

Lemma stopJob_same name w : same_but_timers w (stopJob name w).
Proof. unfold stopJob. destruct (timers w !! name); by repeat split. Qed.

Lemma dispatch_skips_same name w w' :
  same_but_timers w w' -> dispatch_skips name w' = dispatch_skips name w.
Proof.
  intros (_ & Hj & Hr & _).
  unfold dispatch_skips, dispatch_skips_job, overlap_blocked.
  by rewrite Hj, Hr.
Qed.

(** While the dispatch of [name] is turned away, scheduling [name] only
    touches timers: no execution starts from the catch-up branch. *)
Lemma scheduleJob_while_skipping E fuel name w w' :
  dispatch_skips name w = true ->
  world_of (scheduleJob E fuel name w) = Some w' ->
  same_but_timers w w'.
Proof.
  revert w. induction fuel as [|fuel IH]; intros w Hskip; simpl; [done|].
  destruct (oget name (jobs w)) as [job|] eqn:Hjob;
    [|intros [= <-]; apply same_but_timers_refl].
  pose proof (stopJob_same name w) as Hstop.
  set (w1 := stopJob name w) in *.
  assert (dispatch_skips name w1 = true) as Hskip1
    by (by rewrite (dispatch_skips_same _ w)).
  destruct (Context.getNextRunTime E job w1) as [e|[nextRun|]]; simpl;
    [by intros [= <-] | | by intros [= <-]].
  destruct (nextRun - now w1 <=? 0).
  - rewrite dispatch_skips_unchanged by done.
    destruct (recurring job).
    + intros H. eapply same_but_timers_trans; [exact Hstop|]. by apply IH.
    + by intros [= <-].
  - destruct (MAX_SAFE_TIMEOUT <? nextRun - now w1); simpl; intros [= <-];
      (eapply same_but_timers_trans; [exact Hstop|]); by repeat split.
Qed.

Lemma fire_while_skipping E fuel t w w' :
  dispatch_skips (callback_name (timer_cb t)) w = true ->
  world_of (Hook.fire E fuel t w) = Some w' ->
  same_but_timers w w'.
Proof.
  intros Hskip. unfold Hook.fire.
  set (w0 := set_pending _ w).
  assert (same_but_timers w w0) as H0 by (by repeat split).
  assert (dispatch_skips (callback_name (timer_cb t)) w0 = true) as Hskip0
    by (by rewrite (dispatch_skips_same _ w)).
  destruct (timer_cb t) as [name|name job]; simpl in *.
  - intros H. eapply same_but_timers_trans; [exact H0|].
    by eapply scheduleJob_while_skipping.
  - rewrite dispatch_skips_unchanged by done.
    destruct (recurring job).
    + intros H. eapply same_but_timers_trans; [exact H0|].
      by eapply scheduleJob_while_skipping.
    + by intros [= <-].
Qed.

(** ** Skipped dispatches *)

(** C3. A job with [withoutOverlapping] whose name is in the in-flight table
    is not executed again: the dispatch resolves to a skip with reason
    already_running, whatever its [paused] flag says (the overlap check comes
    first), and leaves the whole world as it was; a manual run gives that
    same result, and a timer firing for that name changes nothing but
    timers. *)
Theorem C3_overlap_skips_first (E : Env) (name : string) (job : Job) (w : World) :
  oget name (jobs w) = Some job ->
  job_withoutOverlapping job = true ->
  is_Some (running w !! name) ->
  (forall custom,
     Context.executeJob E name custom w = (Skipped already_running, w))
  /\ (forall custom,
        runJobs E (NameArray [name]) custom w = ([Skipped already_running], w))
  /\ (forall fuel t w',
        callback_name (timer_cb t) = name ->
        world_of (Hook.fire E fuel t w) = Some w' ->
        running w' = running w /\ children w' = children w
        /\ events w' = events w).
Proof.
  intros Hjob Hwo Hrun.
  assert (overlap_blocked name job w = true) as Hb.
  { unfold overlap_blocked. rewrite Hwo. simpl. by apply bool_decide_eq_true. }
  assert (forall custom,
            Context.executeJob E name custom w = (Skipped already_running, w)) as Hd.
  { intros custom. rewrite (context_executeJob_registered _ _ job) by done.
    by apply executeJob_blocked. }
  split; [exact Hd|]. split.
  - intros custom. unfold runJobs. simpl. by rewrite Hd.
  - intros fuel t w' Hname Hfire.
    destruct (fire_while_skipping E fuel t w w') as (_ & _ & ? & ? & ?); [|done|done].
    unfold dispatch_skips, dispatch_skips_job. by rewrite Hname, Hjob, Hb.
Qed.

Lemma C3_overlap_skips_first_witness :
  let w := Sample.busy_on_hold in
  job_paused (JobControl.with_paused true Sample.report) = true
  /\ Context.executeJob Sample.env "report" None w = (Skipped already_running, w).
Proof.
  split; [reflexivity|].
  apply (C3_overlap_skips_first Sample.env "report"
           (JobControl.with_paused true Sample.report) Sample.busy_on_hold).
  - reflexivity.
  - reflexivity.
  - exists 400. reflexivity.
Defined.

(** C6. While a job is paused (and no overlap skip comes first) every
    dispatch resolves to a skip with reason paused and changes nothing:
    from a manual run and from a timer firing alike, no child is spawned.
    [resumeJob] clears the flag, and the dispatch that follows goes through
    the executor's start path: it spawns the child with the merged inputs
    on its command line when the script exists, and is rejected for the
    missing script otherwise (or, without a child, by what
    [JSON.stringify] or [spawn] throws). *)
Theorem C6_paused_until_resumed (E : Env) (name : string) (job : Job) (w : World) :
  oget name (jobs w) = Some job ->
  job_paused job = true ->
  overlap_blocked name job w = false ->
  (forall custom, Context.executeJob E name custom w = (Skipped paused, w))
  /\ (forall custom, runJobs E (NameArray [name]) custom w = ([Skipped paused], w))
  /\ (forall fuel t w',
        callback_name (timer_cb t) = name ->
        world_of (Hook.fire E fuel t w) = Some w' ->
        children w' = children w /\ running w' = running w)
  /\ fst (resumeJob name w) = true
  /\ (forall custom,
        let w1 := snd (resumeJob name w) in
        let inputs := merged_inputs job (Loader.or_else custom []) in
        match buildCommandArgs name inputs with
        | None =>
            exists w2,
              Context.executeJob E name custom w1 = (Rejected ErrSerialize, w2)
              /\ children w2 = children w
        | Some args =>
            if script_exists E name then
              match spawn_throws E args with
              | Some message =>
                  exists w2,
                    Context.executeJob E name custom w1
                      = (Rejected (ErrSpawnThrown message), w2)
                    /\ children w2 = children w
              | None =>
                  exists c w2,
                    Context.executeJob E name custom w1 = (Started c, w2)
                    /\ children w2 = children w ++ [c]
                    /\ child_name c = name /\ child_inputs c = inputs
                    /\ child_args c = args
                    /\ running w2 !! name = Some (now w)
              end
            else
              exists w2,
                Context.executeJob E name custom w1
                  = (Rejected (ErrScriptNotFound name), w2)
                /\ children w2 = children w
        end).
Proof.
  intros Hjob Hp Hb.
  assert (forall custom, Context.executeJob E name custom w = (Skipped paused, w)) as Hd.
  { intros custom. rewrite (context_executeJob_registered _ _ job) by done.
    by apply executeJob_paused. }
  split; [exact Hd|]. split; [|split; [|split]].
  - intros custom. unfold runJobs. simpl. by rewrite Hd.
  - intros fuel t w' Hname Hfire.
    destruct (fire_while_skipping E fuel t w w') as (_ & _ & ? & ? & ?); [|done|done].
    unfold dispatch_skips, dispatch_skips_job. by rewrite Hname, Hjob, Hb, Hp.
  - unfold resumeJob. by rewrite Hjob.
  - intros custom. unfold resumeJob. rewrite Hjob. cbn [snd].
    set (w1 := set_jobs _ w). set (job1 := with_paused false job).
    cbv zeta.
    assert (oget name (jobs w1) = Some job1) as Hjob1 by apply oget_oset_eq.
    assert (overlap_blocked name job1 w1 = false) as Hb1 by exact Hb.
    rewrite (context_executeJob_registered _ _ job1) by done.
    change (merged_inputs job (Loader.or_else custom []))
      with (merged_inputs job1 (Loader.or_else custom [])).
    destruct (buildCommandArgs name _) as [args|] eqn:Hargs.
    + destruct (script_exists E name) eqn:Hs.
      * destruct (spawn_throws E args) as [message|] eqn:Hsp.
        -- destruct (executeJob_spawn_throws E name job1 (Loader.or_else custom [])
                       args message w1) as (w2 & Hex & Hc & _); [done..|].
           by exists w2.
        -- destruct (executeJob_started E name job1 (Loader.or_else custom []) args w1)
             as (c & w2 & Hex & -> & Hr & Hc & _); [done..|].
           eexists _, w2. split; [exact Hex|]. repeat split; [exact Hc|].
           rewrite Hr. apply lookup_insert_eq.
      * destruct (executeJob_missing E name job1 (Loader.or_else custom []) args w1)
          as (w2 & Hex & _ & Hc & _); [done..|].
        by exists w2.
    + destruct (executeJob_unserializable E name job1 (Loader.or_else custom []) w1)
        as (w2 & Hex & Hc & _); [done..|].
      by exists w2.
Qed.

Lemma C6_paused_until_resumed_witness :
  Context.executeJob Sample.env "report" None Sample.on_hold
  = (Skipped paused, Sample.on_hold).
Proof.
  apply (C6_paused_until_resumed Sample.env "report"
           (JobControl.with_paused true Sample.report) Sample.on_hold);
    reflexivity.
Defined.

(** ** Executions that start *)

Lemma merged_inputs_lookup (job : Job) (custom : Obj) (k : string) :
  NoDup (okeys (job_inputs job)) ->
  NoDup (okeys (job_scriptInputs job)) ->
  NoDup (okeys custom) ->
  oget k (merged_inputs job custom)
  = match oget k custom with
    | Some v => Some v
    | None =>
        match oget k (job_scriptInputs job) with
        | Some v => Some v
        | None => oget k (job_inputs job)
        end
    end.
Proof.
  intros Hb Hs Hc. unfold merged_inputs.
  rewrite !oget_spread by done. simpl.
  by destruct (oget k custom), (oget k (job_scriptInputs job)),
       (oget k (job_inputs job)).
Qed.

Lemma merged_inputs_NoDup (job : Job) (custom : Obj) :
  NoDup (okeys (merged_inputs job custom)).
Proof. unfold merged_inputs. do 3 apply okeys_spread_NoDup. constructor. Qed.

Lemma elem_of_merged_inputs (job : Job) (custom : Obj) (p : string * JsVal) :
  p ∈ merged_inputs job custom ->
  p ∈ job_inputs job ++ job_scriptInputs job ++ custom.
Proof.
  unfold merged_inputs. rewrite !elem_of_app.
  intros [[[?%elem_of_nil|?]%elem_of_spread|?]%elem_of_spread|?]%elem_of_spread;
    tauto.
Qed.

(** C8. What the sink is given is the command line: the words [run] and
    the job name, then one [--key=value] per input of the merged object, in
    which no key comes twice and each key has the value of the last of the
    three layers (base inputs, script inputs, custom inputs) that holds it.
    [spawn] is called with that vector, and the child it returns carries it.
    Running a job whose base inputs are [{x: 0, y: 2}] with custom inputs
    [{x: 1}] gives the command line [run <name> --x=1 --y=2]. *)
Theorem C8_inputs_precedence (E : Env) (name : string) (job : Job) (custom : Obj)
    (w : World) :
  oget name (jobs w) = Some job ->
  dispatch_skips name w = false ->
  script_exists E name = true ->
  NoDup (okeys (job_inputs job)) ->
  NoDup (okeys (job_scriptInputs job)) ->
  NoDup (okeys custom) ->
  (forall k v, (k, v) ∈ job_inputs job ++ job_scriptInputs job ++ custom ->
               stringifies v = true) ->
  exists inputs,
    NoDup (okeys inputs)
    /\ (forall k,
          oget k inputs
          = match oget k custom with
            | Some v => Some v
            | None =>
                match oget k (job_scriptInputs job) with
                | Some v => Some v
                | None => oget k (job_inputs job)
                end
            end)
    /\ (job_inputs job = [("x", VNum 0); ("y", VNum 2)] ->
        job_scriptInputs job = [] ->
        custom = [("x", VNum 1)] ->
        inputs = [("x", VNum 1); ("y", VNum 2)])
    /\ let args := ArgWord "run" :: ArgWord name
                     :: map (fun p => ArgInput (fst p) (snd p)) inputs in
       match spawn_throws E args with
       | Some message =>
           exists w',
             Context.executeJob E name (Some custom) w
               = (Rejected (ErrSpawnThrown message), w')
             /\ children w' = children w
       | None =>
           exists c w',
             Context.executeJob E name (Some custom) w = (Started c, w')
             /\ runJobs E (NameArray [name]) (Some custom) w = ([Started c], w')
             /\ children w' = children w ++ [c]
             /\ child_name c = name
             /\ child_args c = args
       end.
Proof.
  intros Hjob Hskip Hs Hb Hsi Hc Hstr.
  unfold dispatch_skips, dispatch_skips_job in Hskip. rewrite Hjob in Hskip.
  apply orb_false_iff in Hskip as [Hnb Hnp].
  exists (merged_inputs job custom).
  split; [apply merged_inputs_NoDup|]. split; [|split].
  - intros k. by apply merged_inputs_lookup.
  - unfold merged_inputs. intros -> -> ->. vm_compute. reflexivity.
  - cbv zeta.
    assert (buildCommandArgs name (merged_inputs job custom)
            = Some (ArgWord "run" :: ArgWord name
                      :: map (fun p => ArgInput (fst p) (snd p))
                           (merged_inputs job custom))) as Hargs.
    { apply buildCommandArgs_stringifies. intros k v Hin.
      apply (Hstr k v). by apply elem_of_merged_inputs. }
    rewrite (context_executeJob_registered _ _ job) by done. simpl.
    destruct (spawn_throws E _) as [message|] eqn:Hsp.
    + destruct (executeJob_spawn_throws E name job custom _ message w Hnb Hnp Hargs Hs Hsp)
        as (w' & Hex & Hch & _).
      by exists w'.
    + destruct (executeJob_started E name job custom _ w Hnb Hnp Hargs Hs Hsp)
        as (c & w' & Hex & Hceq & Hr & Hch & _).
      exists c, w'. split; [exact Hex|]. split; [|split; [exact Hch|]].
      * unfold runJobs. simpl.
        rewrite (context_executeJob_registered _ _ job) by done. simpl.
        by rewrite Hex.
      * by rewrite Hceq.
Qed.

Lemma C8_inputs_precedence_witness :
  (oget "report" (jobs Sample.registered) = Some Sample.report
   /\ dispatch_skips "report" Sample.registered = false
   /\ script_exists Sample.env "report" = true)
  /\ exists c w',
       runJobs Sample.env (NameArray ["report"]) (Some [("x", VNum 1)])
         Sample.registered = ([Started c], w')
       /\ child_args c
          = [ArgWord "run"; ArgWord "report"; ArgInput "x" (VNum 1);
             ArgInput "y" (VNum 2)].
Proof.
  split; [by repeat split|].
  destruct (C8_inputs_precedence Sample.env "report" Sample.report
              [("x", VNum 1)] Sample.registered)
    as (inputs & _ & _ & Hxy & Hrun).
  - reflexivity.
  - reflexivity.
  - reflexivity.
  - apply (bool_decide_unpack _). reflexivity.
  - constructor.
  - apply (bool_decide_unpack _). reflexivity.
  - intros k v Hin. simpl in Hin.
    repeat (apply elem_of_cons in Hin as [[= _ ->]|Hin]; [reflexivity|]).
    by apply elem_of_nil in Hin.
  - rewrite (Hxy eq_refl eq_refl eq_refl) in Hrun. simpl in Hrun.
    destruct Hrun as (c & w' & _ & Hr & _ & _ & Ha). by exists c, w'.
Defined.



(** The two handlers that settle a started execution delete its entry, in
    whatever world they run. *)
Lemma on_exit_deletes E c code w :
  running (snd (on_exit E c code w)) !! child_name c = None.
Proof.
  unfold on_exit.
  destruct code as [[| |]|]; cbn [snd]; autorewrite with world;
    world_simpl; apply lookup_delete_eq.
Qed.

Lemma on_error_deletes E c err w :
  running (snd (on_error E c err w)) !! child_name c = None.
Proof.
  unfold on_error. cbn [snd]. autorewrite with world. world_simpl.
  apply lookup_delete_eq.
Qed.

(** C4, at the input where the code departs from it.  The entry is made
    before anything else of the start ([running.set] comes first), and three
    paths delete it: the exit handler, the error handler and the rejection
    for a missing script.  What is thrown in between has no such path.
    When an input is a BigInt, which [JSON.stringify] refuses, or when
    [spawn] throws for the argument vector, the promise is rejected while
    the entry stays in the in-flight table; no child exists whose handlers
    could delete it, and a job that forbids overlap is turned away as
    already running at every later dispatch. *)
Theorem C4_thrown_start_leaves_entry (E : Env) (name : string) (job : Job)
    (custom : Obj) (w : World) :
  dispatch_skips_job name job w = false ->
  (let inputs := merged_inputs job custom in
   (exists k n, (k, VBigInt n) ∈ inputs)
   \/ (script_exists E name = true
       /\ exists message,
            spawn_throws E
              (ArgWord "run" :: ArgWord name
                 :: map (fun p => ArgInput (fst p) (snd p)) inputs)
            = Some message)) ->
  (exists e w',
     Executor.executeJob E name job custom w = (Rejected e, w')
     /\ running w' !! name = Some (now w)
     /\ children w' = children w
     /\ (job_withoutOverlapping job = true ->
         forall custom' t,
           Executor.executeJob E name job custom' (set_now (fun _ => t) w')
           = (Skipped already_running, set_now (fun _ => t) w')))
  /\ (forall c code w2, running (snd (on_exit E c code w2)) !! child_name c = None)
  /\ (forall c err w2, running (snd (on_error E c err w2)) !! child_name c = None)
  /\ (forall E0 custom0 args,
        buildCommandArgs name (merged_inputs job custom0) = Some args ->
        script_exists E0 name = false ->
        running (snd (Executor.executeJob E0 name job custom0 w)) !! name = None).
Proof.
  unfold dispatch_skips_job. intros [Hb Hp]%orb_false_iff Htrigger.
  split; [|split; [|split]].
  - assert (exists e w',
              Executor.executeJob E name job custom w = (Rejected e, w')
              /\ children w' = children w /\ start_frame name w w')
      as (e & w' & Hex & Hc & Hr & _).
    { cbv zeta in Htrigger.
      destruct (buildCommandArgs name (merged_inputs job custom)) as [args|] eqn:Hargs.
      - destruct Htrigger as [Hbig|(Hs & message & Hsp)].
        { apply (proj2 (buildCommandArgs_None name _)) in Hbig. congruence. }
        pose proof (buildCommandArgs_Some _ _ _ Hargs) as [Ha _].
        rewrite <- Ha in Hsp.
        destruct (executeJob_spawn_throws E name job custom args message w)
          as (w' & Hex & H); [done..|].
        by exists (ErrSpawnThrown message), w'.
      - destruct (executeJob_unserializable E name job custom w)
          as (w' & Hex & H); [done..|].
        by exists ErrSerialize, w'. }
    exists e, w'. split; [exact Hex|].
    assert (running w' !! name = Some (now w)) as Hin
      by (rewrite Hr; apply lookup_insert_eq).
    split; [exact Hin|]. split; [exact Hc|].
    intros Hwo custom' t. apply executeJob_blocked.
    unfold overlap_blocked. rewrite Hwo. simpl.
    apply bool_decide_eq_true. world_simpl. by rewrite Hin.
  - intros c code w2. apply on_exit_deletes.
  - intros c err w2. apply on_error_deletes.
  - intros E0 custom0 args Hargs Hs0.
    destruct (executeJob_missing E0 name job custom0 args w Hb Hp Hargs Hs0)
      as (w' & -> & Hr & _).
    cbn [snd]. rewrite Hr. apply lookup_delete_eq.
Qed.

Lemma C4_thrown_start_leaves_entry_witness :
  let custom := [("count", VBigInt 10)] in
  dispatch_skips_job "report" Sample.report Sample.registered = false
  /\ exists e w',
       Executor.executeJob Sample.env "report" Sample.report custom Sample.registered
       = (Rejected e, w')
       /\ running w' !! "report" = Some 1000
       /\ children w' = []
       /\ Executor.executeJob Sample.env "report" Sample.report [] w'
          = (Skipped already_running, w').
Proof.
  split; [reflexivity|].
  destruct (C4_thrown_start_leaves_entry Sample.env "report" Sample.report
              [("count", VBigInt 10)] Sample.registered)
    as ((e & w' & Hex & Hin & Hc & Hnext) & _).
  - reflexivity.
  - left. exists "count", 10. do 2 right. left.
  - exists e, w'. split; [exact Hex|]. split; [exact Hin|]. split; [exact Hc|].
    pose proof (Hnext eq_refl [] (now w')) as Hskip.
    by destruct w'.
Defined.

(** ** Loading job definitions *)

Lemma seen_name_spec (n : option string) (seen : list (option string)) :
  existsb (Loader.option_string_eqb n) seen = true <-> n ∈ seen.
Proof.
  induction seen as [|m seen IH]; simpl.
  - split; [done|]. by intros ?%elem_of_nil.
  - rewrite orb_true_iff, IH, elem_of_cons.
    assert (Loader.option_string_eqb n m = true <-> n = m) as ->; [|done].
    destruct n as [x|], m as [y|]; simpl; try (split; congruence).
    rewrite String.eqb_eq. split; congruence.
Qed.

(** The loop over a prefix of distinct, unseen names runs to its end, and
    the loop over the whole list continues from there. *)
Lemma load_config_jobs_app scripts config pre rest seen jobs :
  NoDup (map declared_name pre) ->
  (forall n, n ∈ map declared_name pre -> n ∉ seen) ->
  exists jobs_pre,
    Loader.load_config_jobs scripts config pre seen jobs = Loader.Loaded jobs_pre
    /\ Loader.load_config_jobs scripts config (pre ++ rest) seen jobs
       = Loader.load_config_jobs scripts config rest
           (rev (map declared_name pre) ++ seen) jobs_pre.
Proof.
  revert seen jobs. induction pre as [|d pre IH]; intros seen jobs Hnd Hseen.
  - by exists jobs.
  - apply NoDup_cons in Hnd as [Hd Hnd]. simpl.
    set (job := match d with inl s => Loader.named (Some s) | inr def => def end).
    assert (def_name job = declared_name d) as Hname by (by destruct d).
    rewrite Hname.
    destruct (existsb _ seen) eqn:Hex.
    { apply seen_name_spec in Hex. exfalso. eapply Hseen; [|exact Hex]. left. }
    match goal with
    | |- context [Loader.load_config_jobs _ _ pre _ ?j] =>
        destruct (IH (declared_name d :: seen) j) as (jobs_pre & H1 & H2)
    end.
    + done.
    + intros n Hn [->|Hin]%elem_of_cons; [done|].
      eapply Hseen; [|exact Hin]. by right.
    + exists jobs_pre. split; [exact H1|]. rewrite H2.
      by rewrite <- app_assoc.
Qed.

(** C9, as the code has it.  The second occurrence of a name in
    [config.jobs] makes [loadJobs] throw: the duplicate does not overwrite
    the first registration, and the load stops there, so the jobs table is
    what the entries before the duplicate made it; the entries after it
    and the scripts are not loaded. *)
Theorem C9_duplicate_name_rejects_load (scripts : list (string * Loader.ScriptDef))
    (config : Config) (pre post : list (string + JobDef)) (d : string + JobDef)
    (jobs : list (string * Job)) :
  cfg_jobs config = Some (pre ++ d :: post) ->
  NoDup (map declared_name pre) ->
  declared_name d ∈ map declared_name pre ->
  exists jobs_pre,
    Loader.load_config_jobs scripts config pre [] jobs = Loader.Loaded jobs_pre
    /\ Loader.loadJobs scripts config jobs
       = Loader.LoadThrown (ErrDuplicateName (declared_name d)) jobs_pre.
Proof.
  intros Hcfg Hnd Hdup.
  destruct (load_config_jobs_app scripts config pre (d :: post) [] jobs)
    as (jobs_pre & H1 & H2); [done | by intros n _ ?%elem_of_nil |].
  exists jobs_pre. split; [exact H1|].
  unfold Loader.loadJobs. rewrite Hcfg, H2. simpl.
  set (job := match d with inl s => Loader.named (Some s) | inr def => def end).
  assert (def_name job = declared_name d) as -> by (by destruct d).
  assert (existsb (Loader.option_string_eqb (declared_name d))
            (rev (map declared_name pre) ++ []) = true) as ->; [|done].
  apply seen_name_spec. rewrite app_nil_r.
  apply list_elem_of_In. rewrite <- in_rev. by apply list_elem_of_In.
Qed.

Lemma C9_duplicate_name_rejects_load_witness :
  exists ja,
    Loader.loadJobs [] SampleLoad.twice_a []
    = Loader.LoadThrown (ErrDuplicateName (Some "a")) [("a", ja)].
Proof.
  destruct (C9_duplicate_name_rejects_load [] SampleLoad.twice_a [inl "a"] [inl "b"]
              (inl "a") []) as (jobs_pre & H1 & H2).
  - reflexivity.
  - apply (bool_decide_unpack _). reflexivity.
  - apply (bool_decide_unpack _). reflexivity.
  - injection H1 as <-. eexists. exact H2.
Defined.

(** C9 as stated fails: with [jobs: ['a', 'a', 'b']] the load throws at the
    second ['a'] and ['b'] is never registered. *)
Lemma C9_duplicate_aborts_others_counterexample :
  ~ every_declared_job_loaded [] SampleLoad.twice_a.
Proof.
  intros H.
  destruct (H [inl "a"; inl "a"; inl "b"] "b") as [j Hj].
  - reflexivity.
  - apply (bool_decide_unpack _). reflexivity.
  - done.
  - vm_compute in Hj. discriminate.
Qed.

(** Registration order: a new name goes last, a known name keeps its
    place.  This is the order in which the batch operations visit the jobs
    when they are given no names. *)
Lemma addJobDefinition_order (def : JobDef) (jobs : list (string * Job))
    (cfg : Config) (name : string) :
  def_name def = Some name ->
  name <> "" ->
  okeys (Loader.addJobDefinition def jobs cfg)
  = if Scheduler.is_some (oget name jobs) then okeys jobs else okeys jobs ++ [name].
Proof.
  intros Hname Hne. unfold Loader.addJobDefinition. rewrite Hname.
  apply String.eqb_neq in Hne. rewrite Hne.
  destruct (oget name jobs) eqn:Hget; simpl.
  - apply okeys_oset_present. eauto.
  - by apply okeys_oset_absent.
Qed.

(** ** Frame properties of the executor *)

Lemma same_but_executions_refl w : same_but_executions w w.
Proof. by repeat split. Qed.

Lemma same_but_executions_trans w1 w2 w3 :
  same_but_executions w1 w2 -> same_but_executions w2 w3 ->
  same_but_executions w1 w3.
Proof. unfold same_but_executions. intuition congruence. Qed.

Lemma executor_executeJob_frame E name job custom w :
  same_but_executions w (snd (Executor.executeJob E name job custom w)).
Proof.
  unfold Executor.executeJob.
  destruct (_ && _); [apply same_but_executions_refl|].
  destruct (job_paused job); [apply same_but_executions_refl|].
  destruct (buildCommandArgs _ _) as [args|];
    [destruct (negb _); [|destruct (spawn_throws E args)]|];
    cbn [snd]; unfold same_but_executions, Platform.spawn;
    cbn [snd]; world_simpl; autorewrite with world; world_simpl;
    autorewrite with world; by world_simpl.
Qed.

Lemma context_executeJob_frame E name custom w :
  same_but_executions w (snd (Context.executeJob E name custom w)).
Proof.
  unfold Context.executeJob.
  destruct (oget name (jobs w)); apply executor_executeJob_frame.
Qed.

Lemma on_exit_frame E c code w : same_but_executions w (snd (on_exit E c code w)).
Proof.
  unfold on_exit, same_but_executions.
  destruct code as [[| |]|]; cbn [snd]; autorewrite with world; by world_simpl.
Qed.

Lemma on_error_frame E c err w : same_but_executions w (snd (on_error E c err w)).
Proof.
  unfold on_error, same_but_executions. cbn [snd].
  autorewrite with world. by world_simpl.
Qed.

Lemma run_each_frame E names inputs w :
  same_but_executions w (snd (run_each E names inputs w)).
Proof.
  revert w. induction names as [|name names IH]; intros w; simpl.
  - apply same_but_executions_refl.
  - pose proof (context_executeJob_frame E name inputs w) as H1.
    destruct (Context.executeJob E name inputs w) as [d w1]. simpl in H1.
    pose proof (IH w1) as H2.
    destruct (run_each E names inputs w1) as [ds w2]. simpl in *.
    by eapply same_but_executions_trans.
Qed.

(** ** Scheduling keeps the registry *)

Lemma stopJob_jobs name w : jobs (stopJob name w) = jobs w.
Proof. unfold stopJob. by destruct (timers w !! name). Qed.

Lemma stopJob_now name w : now (stopJob name w) = now w.
Proof. unfold stopJob. by destruct (timers w !! name). Qed.

Lemma scheduleJob_jobs E fuel name w w' :
  world_of (scheduleJob E fuel name w) = Some w' -> jobs w' = jobs w.
Proof.
  revert w. induction fuel as [|fuel IH]; intros w; simpl; [done|].
  destruct (oget name (jobs w)) as [job|]; [|by intros [= <-]].
  pose proof (stopJob_jobs name w) as Hj. set (w1 := stopJob name w) in *.
  destruct (Context.getNextRunTime E job w1) as [e|[nextRun|]]; simpl;
    [by intros [= <-] | | by intros [= <-]].
  destruct (nextRun - now w1 <=? 0).
  - destruct (context_executeJob_frame E name None w1) as (_ & Hj2 & _).
    destruct (recurring job).
    + intros H%IH. congruence.
    + intros [= <-]. congruence.
  - destruct (MAX_SAFE_TIMEOUT <? nextRun - now w1); simpl; by intros [= <-].
Qed.



Lemma schedule_each_jobs E fuel names w w' :
  world_of (schedule_each E fuel names w) = Some w' -> jobs w' = jobs w.
Proof.
  revert w. induction names as [|name names IH]; intros w; simpl.
  - by intros [= <-].
  - destruct (scheduleJob E fuel name w) as [w1|e w1|] eqn:Hs; simpl.
    + intros H%IH. rewrite H. eapply scheduleJob_jobs. by rewrite Hs.
    + intros [= <-]. eapply scheduleJob_jobs. by rewrite Hs.
    + done.
Qed.




(** ** Arming and re-arming *)

Lemma stopJob_next_timer name w : next_timer (stopJob name w) = next_timer w.
Proof. unfold stopJob. by destruct (timers w !! name). Qed.





(** ** Delays beyond the timer bound *)

Section beyond_the_bound.
Variables (E : Env) (name : string) (job : Job) (i : Z).
Hypothesis interval_is_i : job_interval job = VNum i.
Hypothesis i_beyond : MAX_SAFE_TIMEOUT < i.
Hypothesis no_cron : truthy_str (job_cron job) = false.
Hypothesis no_conflict : conflicting job = false.

(** A numeric interval is resolved against the clock at the time of the
    call. *)
Lemma getNextRunTime_interval (clock : Z) :
  Scheduler.getNextRunTime E job clock = Scheduler.Return (Some (clock + i)).
Proof.
  unfold Scheduler.getNextRunTime. fold (conflicting job).
  rewrite no_conflict, no_cron, interval_is_i. simpl.
  by destruct (negb (i =? 0)).
Qed.

(** When the intermediate timer fires, the target is computed anew, one
    interval after the present instant, and another intermediate timer is
    armed: nothing runs. *)
Lemma chained_next (t0 : Z) (k : nat) :
  next_event E 1 (chained name job t0 k) = Some (chained name job t0 (S k)).
Proof.
  unfold next_event, chained. cbn [pending earliest].
  unfold Hook.fire. cbn [timer_cb timer_id timer_due Hook.run_callback].
  world_norm.
  rewrite filter_cons_False by (cbn; congruence). rewrite filter_nil.
  rewrite Z.max_l by (unfold MAX_SAFE_TIMEOUT; lia).
  cbn [scheduleJob]. world_norm.
  cbn [oget]. rewrite String.eqb_refl.
  unfold stopJob. world_norm. rewrite lookup_singleton_eq.
  unfold Platform.clearInterval, Platform.clearTimeout. world_norm.
  rewrite !filter_nil.
  unfold Context.getNextRunTime. world_norm.
  rewrite getNextRunTime_interval.
  match goal with |- context [?a + i - ?a <=? 0] =>
    replace (a + i - a) with i by lia end.
  destruct (i <=? 0) eqn:H1; [unfold MAX_SAFE_TIMEOUT in *; lia|].
  destruct (MAX_SAFE_TIMEOUT <? i) eqn:H2; [|lia].
  unfold Platform.setTimeout. world_norm. cbn [app].
  rewrite delete_singleton_eq, insert_empty.
  assert ((MAX_SAFE_TIMEOUT <? 1) || (MAX_SAFE_TIMEOUT <? MAX_SAFE_TIMEOUT) = false)
    as -> by reflexivity.
  cbn [world_of]. do 2 f_equal.
  - unfold MAX_SAFE_TIMEOUT. lia.
  - do 2 f_equal. unfold MAX_SAFE_TIMEOUT. lia.
Qed.

Lemma chained_forever (t0 : Z) (n k : nat) :
  after_events E 1 n (chained name job t0 k) = Some (chained name job t0 (n + k)).
Proof.
  revert k. induction n as [|n IH]; intros k; simpl; [done|].
  rewrite chained_next, IH. do 2 f_equal. lia.
Qed.

End beyond_the_bound.

(** C1, at the input where the code departs from it.  The job with a plain
    interval of thirty days, scheduled at instant 0, has its first run
    computed for instant 2592000000.  However many timers fire after that,
    each on time, the world is the one where the job waits behind one more
    intermediate timer: [n] bounds have passed, no child was ever spawned
    and no event emitted, and the only live timer is a re-check. *)
Theorem C1_long_interval_never_fires (n : nat) :
  Scheduler.getNextRunTime Sample.env SampleMonthly.monthly 0
  = Scheduler.Return (Some 2592000000)
  /\ exists w,
       after_events Sample.env 1 n SampleMonthly.armed = Some w
       /\ now w = Z.of_nat n * MAX_SAFE_TIMEOUT
       /\ children w = [] /\ events w = []
       /\ (timer_cb <$> pending w) = [Recheck "report"].
Proof.
  split; [reflexivity|].
  assert (SampleMonthly.armed = chained "report" SampleMonthly.monthly 0 0) as ->
    by (vm_compute; reflexivity).
  rewrite (chained_forever Sample.env "report" SampleMonthly.monthly SampleMonthly.thirty_days)
    by reflexivity.
  eexists. split; [reflexivity|]. rewrite Nat.add_0_r. by repeat split.
Qed.

(** On time, a date beyond the bound is reached: the re-checks find the
    same target again.  Here the date is instant 5000000000, scheduled at
    instant 0; two intermediate timers pass and the third event is the run,
    at the target. *)
Lemma date_beyond_bound_fires_on_target :
  let job :=
    {| def_name := Some "report"; def_friendlyName := None; def_description := None;
       def_interval := VUndef; def_timeout := VUndef; def_cron := None;
       def_cronValidate := VUndef; def_date := Some 5000000000; def_inputs := None;
       def_scriptInputs := None; def_withoutOverlapping := None |} in
  let armed :=
    or_initial
      (scheduleJob Sample.env 1 "report"
         (set_jobs (fun jobs => Loader.addJobDefinition job jobs Sample.quest_config)
            (initial 0))) in
  (now <$> after_events Sample.env 1 2 armed) = Some (2 * MAX_SAFE_TIMEOUT)
  /\ (children <$> after_events Sample.env 1 2 armed) = Some []
  /\ (now <$> after_events Sample.env 1 3 armed) = Some 5000000000
  /\ (length ∘ children <$> after_events Sample.env 1 3 armed) = Some 1%nat.
Proof. by vm_compute. Qed.

(** ** One live timer per job *)

Lemma NoDup_fmap_filter {A B} (f : A -> B) (P : A -> Prop) `{!forall x, Decision (P x)}
    (l : list A) :
  NoDup (f <$> l) -> NoDup (f <$> filter P l).
Proof.
  induction l as [|x l IH]; [done|].
  rewrite fmap_cons. intros [Hx Hl]%NoDup_cons.
  rewrite filter_cons. destruct (decide (P x)); [|by apply IH].
  rewrite fmap_cons. apply NoDup_cons. split; [|by apply IH].
  intros (y & Hy & Hin)%list_elem_of_fmap. apply Hx.
  apply list_elem_of_fmap. exists y. split; [done|].
  by apply list_elem_of_filter in Hin as [_ ?].
Qed.

Lemma filter_none {A} (P : A -> Prop) `{!forall x, Decision (P x)} (l : list A) :
  (forall x, x ∈ l -> ~ P x) -> filter P l = [].
Proof.
  induction l as [|x l IH]; intros Hno; [done|].
  rewrite filter_cons. destruct (decide (P x)) as [HP|_].
  - exfalso. eapply Hno; [left|done].
  - apply IH. intros y Hy. apply Hno. by right.
Qed.



Lemma consistent_frame w w' :
  timers w' = timers w -> pending w' = pending w -> next_timer w' = next_timer w ->
  timers_consistent w -> timers_consistent w'.
Proof. unfold timers_consistent. by intros -> -> ->. Qed.

Lemma consistent_executions w w' :
  same_but_executions w w' -> timers_consistent w -> timers_consistent w'.
Proof. intros (_ & _ & ? & ? & ?). by apply consistent_frame. Qed.

Lemma consistent_filter (P : Timer -> Prop) `{!forall x, Decision (P x)} w :
  timers_consistent w -> timers_consistent (set_pending (filter P) w).
Proof.
  intros (Hnd & Hlt & Htab). unfold timers_consistent. world_simpl.
  split; [by apply NoDup_fmap_filter|].
  split; intros t [_ Ht]%list_elem_of_filter; auto.
Qed.

Lemma consistent_delete name w :
  live_timers name w = [] ->
  timers_consistent w -> timers_consistent (set_timers (delete name) w).
Proof.
  intros Hnone (Hnd & Hlt & Htab). unfold timers_consistent. world_simpl.
  split; [done|]. split; [done|]. intros t Ht.
  rewrite lookup_delete_ne; [by apply Htab|].
  intros Hname. eapply filter_nil_not_elem_of; [exact Hnone| |exact Ht]. done.
Qed.

Lemma initial_consistent t0 : timers_consistent (initial t0).
Proof.
  unfold timers_consistent. simpl.
  split; [constructor|]. split; intros t Ht%elem_of_nil; done.
Qed.

(** [stopJob] leaves no live timer for the job, and no entry in the table. *)
Lemma stopJob_clears name w :
  timers_consistent w ->
  timers_consistent (stopJob name w)
  /\ live_timers name (stopJob name w) = []
  /\ timers (stopJob name w) !! name = None.
Proof.
  intros Hc. unfold stopJob.
  destruct (timers w !! name) as [i|] eqn:Hi.
  - unfold Platform.clearInterval, Platform.clearTimeout.
    set (w1 := set_pending _ (set_pending _ w)).
    assert (timers_consistent w1) as Hc1 by (by do 2 apply consistent_filter).
    assert (live_timers name w1 = []) as Hnone.
    { apply filter_none. intros t Ht Hname. subst w1. world_simpl.
      apply list_elem_of_filter in Ht as [Hne Ht].
      apply list_elem_of_filter in Ht as [_ Ht].
      destruct Hc as (_ & _ & Htab). apply Htab in Ht.
      rewrite Hname, Hi in Ht. congruence. }
    split; [by apply consistent_delete|]. split; [exact Hnone|].
    world_simpl. apply lookup_delete_eq.
  - split; [done|]. split; [|done].
    apply filter_none. intros t Ht Hname.
    destruct Hc as (_ & _ & Htab). apply Htab in Ht.
    rewrite Hname, Hi in Ht. discriminate.
Qed.

Lemma stopJob_forgets name w : timers (stopJob name w) !! name = None.
Proof.
  unfold stopJob. destruct (timers w !! name) as [i|] eqn:Hi; [|done].
  world_simpl. apply lookup_delete_eq.
Qed.


(** Arming a timer for a job that has none keeps the table and the platform
    in step. *)
Lemma consistent_arm cb delay name w :
  callback_name cb = name ->
  live_timers name w = [] ->
  timers_consistent w ->
  timers_consistent
    (set_timers (insert name (fst (Platform.setTimeout cb delay w)))
       (snd (Platform.setTimeout cb delay w))).
Proof.
  intros Hcb Hnone (Hnd & Hlt & Htab).
  unfold Platform.setTimeout, timers_consistent. world_simpl.
  split; [|split].
  - rewrite fmap_app. apply NoDup_app. split; [done|]. split.
    + intros i (t & Hi & Ht)%list_elem_of_fmap [Hi'|[]%elem_of_nil]%elem_of_cons.
      apply Hlt in Ht. simpl in Hi'. lia.
    + simpl. apply NoDup_singleton.
  - intros t [Ht|[->|[]%elem_of_nil]%elem_of_cons]%elem_of_app.
    + apply Hlt in Ht. lia.
    + simpl. lia.
  - intros t [Ht|[->|[]%elem_of_nil]%elem_of_cons]%elem_of_app.
    + rewrite lookup_insert_ne; [by apply Htab|].
      intros Hname. eapply filter_nil_not_elem_of; [exact Hnone| |exact Ht]. done.
    + simpl. rewrite Hcb. apply lookup_insert_eq.
Qed.

Lemma live_timers_frame name w w' :
  pending w' = pending w -> live_timers name w' = live_timers name w.
Proof. unfold live_timers. by intros ->. Qed.

(** [scheduleJob] keeps the table and the platform in step, and a timer it
    leaves live for the job is one it armed itself. *)
Lemma scheduleJob_consistent E fuel name w w' :
  timers_consistent w ->
  world_of (scheduleJob E fuel name w) = Some w' ->
  timers_consistent w'
  /\ (is_Some (oget name (jobs w)) ->
      forall t, t ∈ live_timers name w' -> (next_timer w <= timer_id t)%nat).
Proof.
  revert w. induction fuel as [|fuel IH]; intros w Hc; [done|].
  cbn [scheduleJob].
  destruct (oget name (jobs w)) as [job|] eqn:Hjob.
  2:{ intros [= <-]. split; [done|]. by intros [? [=]]. }
  destruct (stopJob_clears name w Hc) as (Hc1 & Hnone & _).
  pose proof (stopJob_next_timer name w) as Hnt.
  pose proof (stopJob_jobs name w) as Hj.
  set (w1 := stopJob name w) in *.
  assert (forall w0, timers_consistent w0 -> live_timers name w0 = [] ->
            timers_consistent w0
            /\ (is_Some (Some job) ->
                forall t, t ∈ live_timers name w0 -> (next_timer w <= timer_id t)%nat))
    as Hidle.
  { intros w0 ? Hn. split; [done|]. intros _ t. rewrite Hn. by intros ?%elem_of_nil. }
  destruct (Context.getNextRunTime E job w1) as [e|[nextRun|]]; cbn [world_of];
    [intros [= <-]; by apply Hidle | | intros [= <-]; by apply Hidle].
  destruct (nextRun - now w1 <=? 0).
  - pose proof (context_executeJob_frame E name None w1) as Hf.
    set (w2 := snd (Context.executeJob E name None w1)) in *.
    assert (timers_consistent w2) as Hc2 by (by eapply consistent_executions).
    assert (live_timers name w2 = []) as Hnone2.
    { rewrite (live_timers_frame _ w1); [done|]. by destruct Hf as (_ & _ & _ & ? & _). }
    destruct (recurring job).
    + intros H. destruct (IH w2 Hc2 H) as [Hc' Hfresh]. split; [done|].
      intros _ t Ht. destruct Hf as (_ & Hj2 & _ & _ & Hnt2).
      rewrite <- Hnt, <- Hnt2. apply Hfresh; [|done]. rewrite Hj2, Hj. eauto.
    + intros [= <-]. by apply Hidle.
  - assert (forall cb delay timer w2,
              callback_name cb = name ->
              Platform.setTimeout cb delay w1 = (timer, w2) ->
              timers_consistent (set_timers (insert name timer) w2)
              /\ (is_Some (Some job) ->
                  forall t, t ∈ live_timers name (set_timers (insert name timer) w2) ->
                            (next_timer w <= timer_id t)%nat)) as Harm.
    { intros cb delay timer w2 Hcb Hst.
      pose proof (consistent_arm cb delay name w1 Hcb Hnone Hc1) as Hc2.
      rewrite Hst in Hc2. split; [exact Hc2|].
      intros _ t [Hname Ht]%list_elem_of_filter.
      unfold Platform.setTimeout in Hst. injection Hst as <- <-. world_simpl.
      apply elem_of_app in Ht as [Ht|[->|[]%elem_of_nil]%elem_of_cons].
      - exfalso. eapply filter_nil_not_elem_of; [exact Hnone| |exact Ht]. done.
      - simpl. lia. }
    destruct (MAX_SAFE_TIMEOUT <? nextRun - now w1).
    + destruct (Platform.setTimeout _ _ w1) as [timer w2] eqn:Hst.
      intros [= <-]. eapply (Harm (Recheck name)); [done | exact Hst].
    + destruct (Platform.setTimeout _ _ w1) as [timer w2] eqn:Hst.
      intros [= <-]. eapply (Harm (Fire name job)); [done | exact Hst].
Qed.

Lemma schedule_each_consistent E fuel names w w' :
  timers_consistent w ->
  world_of (schedule_each E fuel names w) = Some w' ->
  timers_consistent w'.
Proof.
  revert w. induction names as [|name names IH]; intros w Hc; simpl.
  - by intros [= <-].
  - destruct (scheduleJob E fuel name w) as [w1|e w1|] eqn:Hs; simpl; [| |done].
    + apply IH. eapply scheduleJob_consistent; [exact Hc|]. by rewrite Hs.
    + intros [= <-]. eapply scheduleJob_consistent; [exact Hc|]. by rewrite Hs.
Qed.

Lemma stopJobs_consistent names w :
  timers_consistent w -> timers_consistent (stopJobs names w).
Proof.
  unfold stopJobs. generalize (names_of names w). intros l. revert w.
  induction l as [|name l IH]; intros w Hc; simpl; [done|].
  apply IH. by apply stopJob_clears.
Qed.

Lemma removeJob_stopJob name w :
  snd (Loader.removeJob name w) = set_jobs (odelete name) (stopJob name w).
Proof. unfold Loader.removeJob, stopJob. by destruct (timers w !! name). Qed.

Lemma remove_consistent names w :
  timers_consistent w -> timers_consistent (snd (Hook.remove names w)).
Proof.
  revert w. induction names as [|name names IH]; intros w Hc; simpl; [done|].
  pose proof (removeJob_stopJob name w) as Hr.
  destruct (Loader.removeJob name w) as [existed w1]. simpl in Hr. subst w1.
  match goal with |- context [Hook.remove names ?w0] =>
    pose proof (IH w0) as H; destruct (Hook.remove names w0) as [removed w2] end.
  simpl in *. apply H.
  eapply (consistent_frame (stopJob name w)); [done..|]. by apply stopJob_clears.
Qed.

Lemma add_consistent E fuel defs w w' :
  timers_consistent w ->
  world_of (Hook.add E fuel defs w) = Some w' ->
  timers_consistent w'.
Proof.
  revert w. induction defs as [|def defs IH]; intros w Hc; simpl.
  - by intros [= <-].
  - set (job := match def with inl s => Loader.named (Some s) | inr d => d end).
    set (w1 := set_jobs _ w).
    assert (timers_consistent w1) as Hc1 by (by eapply (consistent_frame w)).
    assert (forall o w2, o = Done w1 \/ (exists n, o = scheduleJob E fuel n w1) ->
              world_of o = Some w2 -> timers_consistent w2) as Hsched.
    { intros o w2 [->|[n ->]]; [by intros [= <-]|].
      intros H. by eapply scheduleJob_consistent. }
    match goal with |- context [match ?o with Done _ => _ | _ => _ end] =>
      assert (o = Done w1 \/ (exists n, o = scheduleJob E fuel n w1)) as Ho;
      [|destruct o as [w2|e w2|] eqn:Heq]
    end.
    + destruct (cfg_autoStart (config E)); [|by left].
      destruct (def_name job); [right; eauto | by left].
    + apply IH. by eapply Hsched.
    + intros [= <-]. by eapply Hsched.
    + done.
Qed.

Lemma fire_consistent E fuel t w w' :
  timers_consistent w ->
  world_of (Hook.fire E fuel t w) = Some w' ->
  timers_consistent w'.
Proof.
  intros Hc. unfold Hook.fire.
  set (w0 := set_pending _ w).
  assert (timers_consistent w0) as Hc0 by (by apply consistent_filter).
  destruct (timer_cb t) as [name|name job]; simpl.
  - intros H. by eapply scheduleJob_consistent.
  - pose proof (context_executeJob_frame E name None w0) as Hf.
    set (w1 := snd (Context.executeJob E name None w0)) in *.
    assert (timers_consistent w1) as Hc1 by (by eapply consistent_executions).
    destruct (recurring job).
    + intros H. by eapply scheduleJob_consistent.
    + by intros [= <-].
Qed.

Lemma initialize_consistent E fuel scripts w w' :
  timers_consistent w ->
  world_of (Hook.initialize E fuel scripts w) = Some w' ->
  timers_consistent w'.
Proof.
  intros Hc. unfold Hook.initialize.
  destruct (Loader.loadJobs scripts (config E) (jobs w)) as [jobs'|e jobs'].
  - set (w1 := set_jobs _ w).
    assert (timers_consistent w1) as Hc1 by (by eapply (consistent_frame w)).
    destruct (cfg_autoStart (config E)); [|by intros [= <-]].
    by apply schedule_each_consistent.
  - intros [= <-]. by eapply (consistent_frame w).
Qed.

Lemma step_consistent E w w' :
  step E w w' -> timers_consistent w -> timers_consistent w'.
Proof.
  intros Hstep Hc. destruct Hstep.
  - by eapply (consistent_frame w).
  - by eapply fire_consistent.
  - eapply consistent_executions; [apply on_exit_frame|done].
  - eapply consistent_executions; [apply on_error_frame|done].
  - by eapply initialize_consistent.
  - by eapply schedule_each_consistent.
  - by apply stopJobs_consistent.
  - eapply consistent_executions; [apply run_each_frame|done].
  - by eapply add_consistent.
  - by apply remove_consistent.
  - unfold pauseJob. destruct (oget name (jobs w)); [|done].
    by eapply (consistent_frame w).
  - unfold resumeJob. destruct (oget name (jobs w)); [|done].
    by eapply (consistent_frame w).
Qed.

(** At any time the timer table and the platform's timers are in step. *)
Lemma reachable_consistent E w : reachable E w -> timers_consistent w.
Proof.
  intros [t0 Hrtc]. revert w Hrtc. apply rtc_ind_r.
  - apply initial_consistent.
  - intros y z _ Hstep IH. by eapply step_consistent.
Qed.



Lemma armed_reachable : reachable Sample.env SampleRecurring.armed.
Proof.
  exists 0. eapply rtc_l; [|apply rtc_refl].
  apply (step_add Sample.env (initial 0) [inr SampleRecurring.every_second_def] 2).
  vm_compute. reflexivity.
Defined.


(** * Further properties of the code *)

(** ** core/scheduler.js: interval texts *)

Import Scheduler.

Lemma list_ascii_of_string_app (a b : string) :
  list_ascii_of_string (a +:+ b) = list_ascii_of_string a ++ list_ascii_of_string b.
Proof. induction a as [|c a IH]; simpl; [done|]. by rewrite IH. Qed.

Lemma string_of_list_ascii_app (a b : list ascii) :
  string_of_list_ascii (a ++ b) = string_of_list_ascii a +:+ string_of_list_ascii b.
Proof. induction a as [|c a IH]; simpl; [done|]. by rewrite IH. Qed.

Lemma span_spec (p : ascii -> bool) (l a b : list ascii) :
  span p l = (a, b) ->
  l = a ++ b /\ forallb p a = true
  /\ match b with [] => True | c :: _ => p c = false end.
Proof.
  revert a b. induction l as [|c l IH]; intros a b; simpl.
  - by intros [= <- <-].
  - destruct (p c) eqn:Hc.
    + destruct (span p l) as [a' b']. intros [= <- <-].
      destruct (IH a' b' eq_refl) as (-> & Ha & Hb). simpl. by rewrite Hc.
    + intros [= <- <-]. by rewrite Hc.
Qed.

Lemma span_run (p : ascii -> bool) (a b : list ascii) :
  forallb p a = true ->
  match b with [] => True | c :: _ => p c = false end ->
  span p (a ++ b) = (a, b).
Proof.
  intros Ha Hb. induction a as [|c a IH]; simpl in *.
  - destruct b as [|c b]; [done|]. simpl. by rewrite Hb.
  - apply andb_true_iff in Ha as [-> Ha]. by rewrite IH.
Qed.

Lemma shorthandMap_letter (c : ascii) (unit : string) :
  shorthandMap c = Some unit ->
  is_digit c = false
  /\ exists rest, list_ascii_of_string unit = " "%char :: rest /\ rest <> [].
Proof.
  unfold shorthandMap.
  destruct (Ascii.eqb c "s") eqn:H1;
    [|destruct (Ascii.eqb c "m") eqn:H2;
      [|destruct (Ascii.eqb c "h") eqn:H3;
        [|destruct (Ascii.eqb c "d") eqn:H4; [|done]]]];
    intros [= <-];
    match goal with H : Ascii.eqb c _ = true |- _ => apply Ascii.eqb_eq in H; subst c end;
    (split; [reflexivity|]); eexists; (split; [reflexivity|done]).
Qed.

(** X1. The shorthand of [convertShorthand]: a run of digits followed by one
    of the letters s, m, h, d is rewritten to the digits followed by the
    unit word. *)
Theorem convertShorthand_expands (ds : list ascii) (c : ascii) (unit : string) :
  run_of is_digit ds ->
  shorthandMap c = Some unit ->
  convertShorthand (string_of_list_ascii (ds ++ [c]))
  = string_of_list_ascii ds +:+ unit.
Proof.
  intros [Hne Hds] Hc. unfold convertShorthand.
  rewrite list_ascii_of_string_of_list_ascii.
  destruct (shorthandMap_letter c unit Hc) as [Hnd _].
  rewrite span_run by done. rewrite Hc. by destruct ds.
Qed.

Lemma convertShorthand_expands_witness :
  convertShorthand "10m" = "10 minutes".
Proof.
  apply (convertShorthand_expands ["1"; "0"]%char "m"%char " minutes").
  - split; [discriminate | reflexivity].
  - reflexivity.
Defined.

Lemma convertShorthand_cases (str : string) :
  convertShorthand str = str
  \/ exists ds c unit,
       run_of is_digit ds /\ shorthandMap c = Some unit
       /\ convertShorthand str = string_of_list_ascii ds +:+ unit.
Proof.
  unfold convertShorthand.
  destruct (span is_digit (list_ascii_of_string str)) as [ds rest] eqn:Hs.
  apply span_spec in Hs as (_ & Hd & _).
  destruct ds as [|d ds]; [by left|].
  destruct rest as [|c [|c' rest]]; [by left| |by left].
  destruct (shorthandMap c) as [unit|] eqn:Hc; [|by left].
  right. exists (d :: ds), c, unit. by repeat split.
Qed.

Lemma expanded_is_no_shorthand (ds : list ascii) (c : ascii) (unit : string) :
  run_of is_digit ds ->
  shorthandMap c = Some unit ->
  convertShorthand (string_of_list_ascii ds +:+ unit)
  = string_of_list_ascii ds +:+ unit.
Proof.
  intros [Hne Hds] Hc.
  destruct (shorthandMap_letter c unit Hc) as (_ & r & Hu & Hr).
  unfold convertShorthand.
  rewrite list_ascii_of_string_app, list_ascii_of_string_of_list_ascii, Hu.
  rewrite span_run by done. destruct ds; [done|]. by destruct r.
Qed.

(** X2. [convertShorthand] is idempotent: what it returns is never itself a
    shorthand, so a second pass changes nothing. *)
Theorem convertShorthand_idempotent (str : string) :
  convertShorthand (convertShorthand str) = convertShorthand str.
Proof.
  destruct (convertShorthand_cases str) as [Hsame|(ds & c & unit & Hds & Hc & Heq)].
  - by rewrite !Hsame.
  - rewrite Heq. by eapply expanded_is_no_shorthand.
Qed.

Lemma digit_not_space (c : ascii) : is_digit c = true -> is_space c = false.
Proof.
  unfold is_digit, is_space. intros [H1 H2]%andb_true_iff.
  apply Nat.leb_le in H1, H2.
  apply orb_false_iff. split.
  - apply andb_false_iff. right. apply Nat.leb_gt. lia.
  - apply Nat.eqb_neq. lia.
Qed.

Lemma space_not_digit (c : ascii) : is_space c = true -> is_digit c = false.
Proof.
  intros Hs. destruct (is_digit c) eqn:Hd; [|done].
  apply digit_not_space in Hd. congruence.
Qed.

Lemma run_head (p q : ascii -> bool) (l rest : list ascii) :
  (forall c, p c = true -> q c = false) ->
  run_of p l ->
  match l ++ rest with [] => True | c :: _ => q c = false end.
Proof.
  intros Hpq [Hne Hall]. destruct l as [|c l]; [done|]. simpl in *.
  apply andb_true_iff in Hall as [Hc _]. by apply Hpq.
Qed.

(** The "every N unit" pattern on a text made of the word, blanks, digits,
    blanks and a unit word. *)
Lemma everyMatch_every (sp1 ds sp2 : list ascii) (unit : string) (ms : Z) :
  run_of is_space sp1 -> run_of is_digit ds -> run_of is_space sp2 ->
  (unit, ms) ∈ every_units ->
  everyMatch
    (string_of_list_ascii (list_ascii_of_string "every" ++ sp1 ++ ds ++ sp2) +:+ unit)
  = Some (ds, unit)
  /\ msMap (strip_plural unit) = Some ms.
Proof.
  intros Hsp1 Hds Hsp2 Hunit.
  assert (match list_ascii_of_string unit with
          | [] => True | c :: _ => is_space c = false end
          /\ existsb (String.eqb (string_of_list_ascii
                                   (lower_all (list_ascii_of_string unit))))
               unit_alternatives = true
          /\ msMap (strip_plural unit) = Some ms) as (Hu1 & Hu2 & Hu3).
  { unfold every_units in Hunit.
    repeat (apply elem_of_cons in Hunit as [[= -> ->]|Hunit]; [by vm_compute|]).
    by apply elem_of_nil in Hunit. }
  split; [|exact Hu3].
  unfold everyMatch.
  rewrite list_ascii_of_string_app, list_ascii_of_string_of_list_ascii.
  set (U := list_ascii_of_string unit) in *.
  cbn [list_ascii_of_string app firstn skipn].
  change (take 0 ((sp1 ++ ds ++ sp2) ++ U)) with (@nil ascii).
  change (drop 0 ((sp1 ++ ds ++ sp2) ++ U)) with ((sp1 ++ ds ++ sp2) ++ U).
  assert (ascii_list_eqb (lower_all ["e"; "v"; "e"; "r"; "y"]%char)
            ["e"; "v"; "e"; "r"; "y"]%char = true) as -> by reflexivity.
  rewrite <- !app_assoc.
  rewrite (span_run is_space sp1); [|apply Hsp1|].
  2:{ apply (run_head is_digit); [apply digit_not_space | done]. }
  rewrite (span_run is_digit ds); [|apply Hds|].
  2:{ apply (run_head is_space); [apply space_not_digit | done]. }
  rewrite (span_run is_space sp2); [|apply Hsp2|exact Hu1].
  destruct Hsp1 as [? _], Hds as [? _], Hsp2 as [? _].
  destruct sp1, ds, sp2; try done.
  rewrite Hu2. subst U. by rewrite string_of_list_ascii_of_string.
Qed.

(** X3. An interval text of the form "every N unit" (the word in lower
    case, blanks, a decimal number other than zero, blanks, one of the unit
    words second(s), minute(s), hour(s), day(s) in lower case) is resolved by
    the unit table alone: the next run is N units after [fromDate], whatever
    the natural-language parsers would say.  This is for a [fromDate] and a
    result within the range of a [Date]: there N, the product (a multiple of
    1000 below 2^54) and the sum are exact in the code's floating-point
    arithmetic, and the result is a valid [Date]. *)
Theorem parseInterval_every (E : Env) (sp1 ds sp2 : list ascii) (unit : string)
    (ms fromDate clock : Z) :
  run_of is_space sp1 -> run_of is_digit ds -> run_of is_space sp2 ->
  (unit, ms) ∈ every_units ->
  parseInt ds <> 0 ->
  time_value fromDate ->
  time_value (fromDate + parseInt ds * ms) ->
  parseInterval E
    (string_of_list_ascii (list_ascii_of_string "every" ++ sp1 ++ ds ++ sp2) +:+ unit)
    fromDate clock
  = Some (fromDate + parseInt ds * ms).
Proof.
  intros Hsp1 Hds Hsp2 Hunit Hn _ _.
  destruct (everyMatch_every sp1 ds sp2 unit ms) as [Hmatch Hms]; [done..|].
  unfold parseInterval.
  assert (convertShorthand
            (string_of_list_ascii (list_ascii_of_string "every" ++ sp1 ++ ds ++ sp2)
             +:+ unit)
          = string_of_list_ascii (list_ascii_of_string "every" ++ sp1 ++ ds ++ sp2)
            +:+ unit) as ->.
  { unfold convertShorthand.
    rewrite list_ascii_of_string_app, list_ascii_of_string_of_list_ascii.
    reflexivity. }
  rewrite Hmatch, Hms. simpl.
  assert (ms <> 0) as Hms0.
  { unfold every_units in Hunit.
    repeat (apply elem_of_cons in Hunit as [[= -> ->]|Hunit]; [done|]).
    by apply elem_of_nil in Hunit. }
  destruct (parseInt ds * ms =? 0) eqn:Hz; [lia|done].
Qed.

Lemma parseInterval_every_witness :
  parseInterval Sample.env "every 30 days" 1000 1000 = Some (1000 + 30 * 86400000).
Proof.
  apply (parseInterval_every Sample.env [" "]%char ["3"; "0"]%char [" "]%char
           "days" 86400000 1000 1000).
  - split; [discriminate | reflexivity].
  - split; [discriminate | reflexivity].
  - split; [discriminate | reflexivity].
  - do 7 right. left.
  - by vm_compute.
  - by vm_compute.
  - by vm_compute.
Defined.





(** ** core/scheduler.js: the next run time *)

(** X6. A non-empty cron expression decides alone (short of the date and
    timeout conflict): the next run is what the cron parser gives under the
    configured timezone, and when the parser rejects the expression the job
    has no next run, even if it also has a valid interval, timeout or
    date. *)
Theorem getNextRunTime_cron_first (E : Env) (job : Job) (expr : string) (clock : Z) :
  job_cron job = Some expr ->
  expr <> "" ->
  conflicting job = false ->
  getNextRunTime E job clock
  = Return (cron_next E expr (cfg_timezone (config E)) clock).
Proof.
  intros Hcron Hne Hc. unfold getNextRunTime. fold (conflicting job).
  rewrite Hc, Hcron. simpl.
  apply String.eqb_neq in Hne. by rewrite Hne.
Qed.

Lemma getNextRunTime_cron_first_witness :
  getNextRunTime SampleText.env SampleText.hourly 1800000 = Return (Some 3600000).
Proof.
  apply (getNextRunTime_cron_first SampleText.env SampleText.hourly "0 * * * *" 1800000).
  - reflexivity.
  - discriminate.
  - reflexivity.
Defined.

(** X7. For a job whose only schedule form is a date, the next run is that
    date when it lies strictly after the present instant and is absent
    otherwise: a date equal to now, or past, is never scheduled. *)
Theorem getNextRunTime_date_only (E : Env) (job : Job) (date clock : Z) :
  job_date job = Some date ->
  truthy_str (job_cron job) = false ->
  job_interval job = VUndef ->
  timeout_given (job_timeout job) = false ->
  getNextRunTime E job clock = Return (if clock <? date then Some date else None)
  /\ (forall t, getNextRunTime E job clock = Return (Some t) -> clock < t).
Proof.
  intros Hd Hcron Hi Ht.
  assert (getNextRunTime E job clock
          = Return (if clock <? date then Some date else None)) as Heq.
  { unfold getNextRunTime. rewrite Hd, Ht, Hcron, Hi. simpl.
    by destruct (clock <? date). }
  split; [exact Heq|]. intros t. rewrite Heq.
  destruct (clock <? date) eqn:Hlt; [|done]. intros [= <-]. lia.
Qed.

Lemma getNextRunTime_date_only_witness :
  getNextRunTime Sample.env SampleText.dated 5000 = Return None
  /\ getNextRunTime Sample.env SampleText.dated 4999 = Return (Some 5000).
Proof.
  split.
  - apply (getNextRunTime_date_only Sample.env SampleText.dated 5000 5000);
      reflexivity.
  - apply (getNextRunTime_date_only Sample.env SampleText.dated 5000 4999);
      reflexivity.
Defined.

(** ** core/job-control.js: scheduling one job *)

(** X8. When the parser gives no next run (an unreadable interval, a cron
    expression the parser rejects, a past date), [scheduleJob] arms
    nothing, and the timer the job had before is gone: the job is left
    without an entry in the timer table and without a live timer. *)
Theorem scheduleJob_not_scheduled (E : Env) (fuel : nat) (name : string) (job : Job)
    (w : World) :
  timers_consistent w ->
  oget name (jobs w) = Some job ->
  getNextRunTime E job (now w) = Return None ->
  scheduleJob E (S fuel) name w = Done (stopJob name w)
  /\ timers (stopJob name w) !! name = None
  /\ live_timers name (stopJob name w) = []
  /\ same_but_timers w (stopJob name w).
Proof.
  intros Hc Hjob Hnone. split.
  - cbn [scheduleJob]. rewrite Hjob. unfold Context.getNextRunTime.
    by rewrite stopJob_now, Hnone.
  - split; [apply stopJob_forgets|]. split; [by apply stopJob_clears|].
    apply stopJob_same.
Qed.

Lemma scheduleJob_not_scheduled_witness :
  getNextRunTime Sample.env SampleText.dated 6000 = Return None
  /\ scheduleJob Sample.env 1 "report" SampleSchedule.late
     = Done (stopJob "report" SampleSchedule.late).
Proof.
  split; [reflexivity|].
  apply (scheduleJob_not_scheduled Sample.env 0 "report" SampleText.dated
           SampleSchedule.late).
  - unfold timers_consistent. simpl.
    split; [constructor|]. split; intros t Ht%elem_of_nil; done.
  - reflexivity.
  - reflexivity.
Defined.





Lemma stopJob_pending_subset name w t :
  t ∈ pending (stopJob name w) -> t ∈ pending w.
Proof.
  unfold stopJob. destruct (timers w !! name); [|done].
  unfold Platform.clearInterval, Platform.clearTimeout. world_simpl.
  intros [_ [_ Ht]%list_elem_of_filter]%list_elem_of_filter. done.
Qed.

(** X11. For a next run that lies ahead, within the range of a [Date],
    [scheduleJob] calls [setTimeout] with a delay from 1 ms to
    [MAX_SAFE_TIMEOUT]: the time that remains and the callback that runs
    the job when that time is within the bound, the bound itself and the
    callback that only re-checks when it is not.  The platform then takes
    the delay as it is (its replacement of an out-of-range delay by 1 ms
    does not apply): the timer is due exactly that delay from now. *)
Theorem scheduleJob_delay_within_bound (E : Env) (fuel : nat) (name : string)
    (job : Job) (nextRun : Z) (w : World) :
  oget name (jobs w) = Some job ->
  getNextRunTime E job (now w) = Return (Some nextRun) ->
  time_value (now w) ->
  time_value nextRun ->
  now w < nextRun ->
  exists cb delay,
    1 <= delay <= MAX_SAFE_TIMEOUT
    /\ delay = Z.min (nextRun - now w) MAX_SAFE_TIMEOUT
    /\ cb = (if MAX_SAFE_TIMEOUT <? nextRun - now w then Recheck name
             else Fire name job)
    /\ scheduleJob E (S fuel) name w
       = Done (set_timers (insert name (next_timer w))
                 (snd (Platform.setTimeout cb delay (stopJob name w))))
    /\ pending (snd (Platform.setTimeout cb delay (stopJob name w)))
       = pending (stopJob name w)
         ++ [{| timer_id := next_timer w; timer_due := now w + delay;
                timer_cb := cb |}].
Proof.
  intros Hjob Hnext _ _ Hlt.
  eexists _, _. split; [|split; [reflexivity|split; [reflexivity|]]].
  { unfold MAX_SAFE_TIMEOUT. lia. }
  assert ((Z.min (nextRun - now w) MAX_SAFE_TIMEOUT <? 1)
          || (MAX_SAFE_TIMEOUT <? Z.min (nextRun - now w) MAX_SAFE_TIMEOUT) = false)
    as Hkeep.
  { apply orb_false_iff. split; [apply Z.ltb_ge | apply Z.ltb_ge];
      unfold MAX_SAFE_TIMEOUT; lia. }
  split.
  - cbn [scheduleJob]. rewrite Hjob.
    unfold Context.getNextRunTime. rewrite stopJob_now, Hnext.
    destruct (nextRun - now w <=? 0) eqn:H1; [lia|].
    destruct (MAX_SAFE_TIMEOUT <? nextRun - now w) eqn:H2.
    + apply Z.ltb_lt in H2. rewrite Z.min_r by lia.
      unfold Platform.setTimeout. by rewrite stopJob_next_timer.
    + apply Z.ltb_ge in H2. rewrite Z.min_l by lia.
      unfold Platform.setTimeout. by rewrite stopJob_next_timer.
  - unfold Platform.setTimeout. rewrite Hkeep. world_simpl.
    by rewrite stopJob_next_timer, stopJob_now.
Qed.

Lemma scheduleJob_delay_within_bound_witness :
  getNextRunTime Sample.env SampleSchedule.far 0 = Return (Some 5000000000)
  /\ exists w' t,
       scheduleJob Sample.env 1 "report" SampleSchedule.with_far = Done w'
       /\ pending w' = [t]
       /\ timer_due t = MAX_SAFE_TIMEOUT /\ timer_cb t = Recheck "report".
Proof.
  split; [reflexivity|].
  destruct (scheduleJob_delay_within_bound Sample.env 0 "report" SampleSchedule.far
              5000000000 SampleSchedule.with_far)
    as (cb & delay & _ & -> & -> & Hs & _).
  - reflexivity.
  - reflexivity.
  - by vm_compute.
  - by vm_compute.
  - by vm_compute.
  - eexists _, _. split; [exact Hs|]. by repeat split.
Defined.



(** ** core/job-control.js: pause, resume, batch stop, manual run *)

Lemma oset_same {A} (k : string) (v : A) (m : list (string * A)) :
  oget k m = Some v -> oset k v m = m.
Proof.
  induction m as [|[k' v'] m IH]; simpl; [done|].
  destruct (String.eqb k k') eqn:Hk.
  - apply String.eqb_eq in Hk. by intros [= ->]; subst.
  - intros H. by rewrite IH.
Qed.

Lemma oset_oset {A} (k : string) (v v' : A) (m : list (string * A)) :
  oset k v (oset k v' m) = oset k v m.
Proof.
  induction m as [|[k0 v0] m IH]; simpl.
  - by rewrite String.eqb_refl.
  - destruct (String.eqb k k0) eqn:Hk; simpl.
    + by rewrite String.eqb_refl.
    + by rewrite Hk, IH.
Qed.

(** X13. Pausing a job that is not paused and resuming it gives back the
    world as it was: the job keeps its place in the registry and all its
    other fields, and both calls answer [true].  While it is paused the
    registration order and every other job are as before. *)
Theorem pause_resume_round_trip (name : string) (job : Job) (w : World) :
  oget name (jobs w) = Some job ->
  job_paused job = false ->
  fst (pauseJob name w) = true
  /\ resumeJob name (snd (pauseJob name w)) = (true, w)
  /\ okeys (jobs (snd (pauseJob name w))) = okeys (jobs w)
  /\ (forall other, other <> name ->
        oget other (jobs (snd (pauseJob name w))) = oget other (jobs w)).
Proof.
  intros Hjob Hp. unfold pauseJob. rewrite Hjob. cbn [fst snd].
  split; [done|]. split; [|split].
  - unfold resumeJob. world_simpl. rewrite oget_oset_eq.
    assert (with_paused false (with_paused true job) = job) as ->.
    { destruct job. simpl in Hp. by subst. }
    f_equal. destruct w. unfold set_jobs. simpl in *. f_equal.
    rewrite oset_oset. by apply oset_same.
  - world_simpl. apply okeys_oset_present. eauto.
  - intros other Hne. world_simpl. by apply oget_oset_ne.
Qed.

Lemma pause_resume_round_trip_witness :
  resumeJob "report" (snd (pauseJob "report" Sample.registered))
  = (true, Sample.registered).
Proof.
  apply (pause_resume_round_trip "report" Sample.report Sample.registered);
    reflexivity.
Defined.

Lemma stopJob_keeps_idle name other w :
  (timers w !! other = None -> timers (stopJob name w) !! other = None)
  /\ (live_timers other w = [] -> live_timers other (stopJob name w) = []).
Proof.
  split.
  - intros Hnone. unfold stopJob. destruct (timers w !! name); [|done].
    world_simpl. destruct (decide (name = other)) as [->|Hne].
    + apply lookup_delete_eq.
    + by rewrite lookup_delete_ne.
  - intros Hnone. apply filter_none. intros t Ht%stopJob_pending_subset Hname.
    eapply filter_nil_not_elem_of; [exact Hnone| |exact Ht]. done.
Qed.

Lemma stop_each_idle (names : list string) (w : World) :
  timers_consistent w ->
  let w' := fold_left (fun w name => stopJob name w) names w in
  timers_consistent w'
  /\ same_but_timers w w'
  /\ (forall name,
        name ∈ names \/ (timers w !! name = None /\ live_timers name w = []) ->
        timers w' !! name = None /\ live_timers name w' = []).
Proof.
  revert w. induction names as [|n names IH]; intros w Hc; simpl.
  - split; [done|]. split; [apply same_but_timers_refl|].
    intros name [Hin|H]; [by apply elem_of_nil in Hin | done].
  - destruct (stopJob_clears n w Hc) as (Hc1 & Hl1 & Ht1).
    destruct (IH (stopJob n w) Hc1) as (Hc' & Hsame & Hidle).
    split; [done|]. split.
    { eapply same_but_timers_trans; [apply stopJob_same | exact Hsame]. }
    intros name [[->|Hin]%elem_of_cons|[Ht Hl]].
    + apply Hidle. by right.
    + apply Hidle. by left.
    + apply Hidle. right. split; by apply stopJob_keeps_idle.
Qed.

(** X14. [stopJobs] leaves every job it was asked to stop (every registered
    job when no names are given) without an entry in the timer table and
    without a live timer.  It touches nothing else: the registry, the clock,
    the in-flight table, the spawned children and the events are as before,
    so a run that is in flight is not interrupted. *)
Theorem stopJobs_leaves_idle (jobNames : JobNames) (w : World) :
  timers_consistent w ->
  (forall name,
     name ∈ names_of jobNames w ->
     timers (stopJobs jobNames w) !! name = None
     /\ live_timers name (stopJobs jobNames w) = [])
  /\ same_but_timers w (stopJobs jobNames w).
Proof.
  intros Hc. unfold stopJobs.
  destruct (stop_each_idle (names_of jobNames w) w Hc) as (_ & Hsame & Hidle).
  split; [|exact Hsame]. intros name Hin. apply Hidle. by left.
Qed.

Lemma stopJobs_leaves_idle_witness :
  live_timers "report" SampleRecurring.armed <> []
  /\ live_timers "report" (stopJobs NoNames SampleRecurring.armed) = []
  /\ pending (stopJobs NoNames SampleRecurring.armed) = [].
Proof.
  split; [by vm_compute|].
  destruct (stopJobs_leaves_idle NoNames SampleRecurring.armed
              (reachable_consistent _ _ armed_reachable)) as [Hidle _].
  split; [|reflexivity]. apply Hidle. left.
Defined.

(** A manual run gives one promise per name, in the order of the
    names, and never touches the schedule: the clock, the registry, the
    timer table and the platform's timers are as before. *)
Theorem runJobs_keeps_schedule (E : Env) (jobNames : JobNames)
    (inputs : option Obj) (w : World) :
  length (fst (runJobs E jobNames inputs w)) = length (names_of jobNames w)
  /\ same_but_executions w (snd (runJobs E jobNames inputs w)).
Proof.
  split; [|apply run_each_frame].
  unfold runJobs. generalize (names_of jobNames w) as names. intros names.
  revert w. induction names as [|n names IH]; intros w; simpl; [done|].
  destruct (Context.executeJob E n inputs w) as [d w1].
  specialize (IH w1). destruct (run_each E names inputs w1) as [ds w2].
  simpl in *. by rewrite IH.
Qed.

(** X16. When the timer of a job that is not recurring fires, the job is
    dispatched and not armed again: the world the callback leaves is the one
    of the dispatch (with the spawned child, when the dispatch is not turned
    away and the start does not fail); the job stays registered, it has no
    live timer, and the timer table keeps the handle of the timer that
    fired. *)
Theorem fire_one_shot_not_rearmed (E : Env) (fuel : nat) (t : Timer) (name : string)
    (job : Job) (w : World) :
  timers_consistent w ->
  t ∈ pending w ->
  timer_cb t = Fire name job ->
  recurring job = false ->
  let dispatched :=
    Context.executeJob E name None
      (set_pending (filter (fun x => timer_id x ≠ timer_id t)) w) in
  Hook.fire E fuel t w = Done (snd dispatched)
  /\ (forall registered args,
        oget name (jobs w) = Some registered ->
        dispatch_skips name w = false ->
        script_exists E name = true ->
        spawn_args E name (merged_inputs registered []) = Some args ->
        exists c,
          fst dispatched = Started c
          /\ child_name c = name /\ child_args c = args
          /\ children (snd dispatched) = children w ++ [c])
  /\ jobs (snd dispatched) = jobs w
  /\ live_timers name (snd dispatched) = []
  /\ timers (snd dispatched) !! name = Some (timer_id t).
Proof.
  intros Hc Hin Hcb Hrec. cbv zeta. unfold Hook.fire. rewrite Hcb.
  cbn [Hook.run_callback]. rewrite Hrec.
  set (w0 := set_pending _ w).
  destruct (context_executeJob_frame E name None w0) as (_ & Hj & Ht & Hp & _).
  split; [reflexivity|]. split; [|split; [by rewrite Hj|]].
  { intros registered args Hjob Hskip Hs [Hargs Hsp]%spawn_args_Some.
    unfold dispatch_skips, dispatch_skips_job in Hskip. rewrite Hjob in Hskip.
    apply orb_false_iff in Hskip as [Hnb Hnp].
    rewrite (context_executeJob_registered _ _ registered) by done. simpl.
    destruct (executeJob_started E name registered [] args w0 Hnb Hnp Hargs Hs Hsp)
      as (c & w1 & -> & -> & _ & Hch & _).
    eexists. split; [reflexivity|]. by repeat split. }
  destruct Hc as (_ & _ & Htab).
  assert (timers w !! name = Some (timer_id t)) as Hentry.
  { specialize (Htab t Hin). by rewrite Hcb in Htab. }
  split; [|by rewrite Ht].
  rewrite (live_timers_frame _ w0) by done.
  apply filter_none. intros t' Ht' Hname. subst w0. world_simpl.
  apply list_elem_of_filter in Ht' as [Hne Ht'].
  apply Htab in Ht'. rewrite Hname, Hentry in Ht'. congruence.
Qed.

Lemma fire_one_shot_not_rearmed_witness :
  exists w' t,
    scheduleJob Sample.env 1 "report"
      (set_now (fun _ => 4000) SampleSchedule.late) = Done w'
    /\ pending w' = [t]
    /\ exists w'',
         Hook.fire Sample.env 0 t (set_now (fun _ => 5000) w') = Done w''
         /\ length (children w'') = 1%nat
         /\ live_timers "report" w'' = [].
Proof.
  eexists _, _. split; [reflexivity|]. split; [reflexivity|].
  match goal with |- context [Hook.fire _ _ ?t ?w] =>
    destruct (fire_one_shot_not_rearmed Sample.env 0 t "report" SampleText.dated w)
      as (Hfire & Hrun & _ & Hnone & _)
  end.
  - unfold timers_consistent. simpl. split; [apply NoDup_singleton|].
    split; intros t [->|[]%elem_of_nil]%elem_of_cons; [simpl; lia | reflexivity].
  - left.
  - reflexivity.
  - reflexivity.
  - eexists. split; [exact Hfire|]. split; [|exact Hnone].
    destruct (Hrun SampleText.dated [ArgWord "run"; ArgWord "report"]
                eq_refl eq_refl eq_refl eq_refl) as (c & _ & _ & _ & ->).
    reflexivity.
Defined.

(** ** core/executor.js: the inputs on the command line *)

Lemma executeJob_Started_inv E name job custom w c w' :
  Executor.executeJob E name job custom w = (Started c, w') ->
  child_name c = name
  /\ child_inputs c = merged_inputs job custom
  /\ child_args c
     = ArgWord "run" :: ArgWord name
         :: map (fun p => ArgInput (fst p) (snd p)) (merged_inputs job custom).
Proof.
  unfold Executor.executeJob. fold (merged_inputs job custom).
  destruct (_ && _); [done|]. destruct (job_paused job); [done|].
  destruct (buildCommandArgs name _) as [args|] eqn:Hargs; [|done].
  destruct (negb _); [done|]. destruct (spawn_throws E args); [done|].
  unfold Platform.spawn. intros [= <- _].
  apply buildCommandArgs_Some in Hargs as [-> _]. done.
Qed.

(** X17. The inputs of a started run, as they go on the command line: the
    words [run] and the script name, then one [--key=value] per input.  No
    key comes twice, whatever the three layers hold, and the keys are
    exactly those of the job's base inputs, its script inputs and the custom
    inputs together. *)
Theorem started_run_arguments (E : Env) (name : string) (job : Job) (custom : Obj)
    (w w' : World) (c : Child) :
  Executor.executeJob E name job custom w = (Started c, w') ->
  child_args c
  = ArgWord "run" :: ArgWord name
      :: map (fun p => ArgInput (fst p) (snd p)) (child_inputs c)
  /\ NoDup (okeys (child_inputs c))
  /\ (forall k,
        k ∈ okeys (child_inputs c)
        <-> k ∈ okeys (job_inputs job) \/ k ∈ okeys (job_scriptInputs job)
            \/ k ∈ okeys custom).
Proof.
  intros (_ & Hi & Ha)%executeJob_Started_inv.
  rewrite Ha, Hi. split; [done|]. split.
  - apply merged_inputs_NoDup.
  - intros k. unfold merged_inputs. rewrite !okeys_spread_elem. simpl.
    rewrite elem_of_nil. tauto.
Qed.

Lemma started_run_arguments_witness :
  exists c w',
    Executor.executeJob Sample.env "report" Sample.report [("x", VNum 1)]
      Sample.registered = (Started c, w')
    /\ child_args c
       = [ArgWord "run"; ArgWord "report"; ArgInput "x" (VNum 1); ArgInput "y" (VNum 2)].
Proof.
  eexists _, _. split; [reflexivity|].
  apply (started_run_arguments Sample.env "report" Sample.report [("x", VNum 1)]
           Sample.registered _ _ eq_refl).
Defined.

(** ** core/executor.js: settlement *)

(** X18. The duration reported when a run exits, while its entry in the
    in-flight table still stands: the exit instant minus the start instant.
    Code 0 resolves with it and emits quest:job:complete; any other code, or
    none, rejects with the exit-code error and emits quest:job:error. *)
Theorem exit_reports_duration (E : Env) (name : string) (job : Job) (custom : Obj)
    (w w1 w2 : World) (c : Child) (code : option Z) :
  Executor.executeJob E name job custom w = (Started c, w1) ->
  running w2 !! name = Some (now w) ->
  global_sails E = true ->
  let duration := Some (now w2 - now w) in
  let settled := on_exit E c code w2 in
  running (snd settled) = delete name (running w2)
  /\ if bool_decide (code = Some 0) then
       fst settled = Resolve duration
       /\ events (snd settled)
          = events w2 ++ [JobComplete name (child_inputs c) duration (now w2)]
     else
       fst settled = Reject (ErrExitCode name code)
       /\ events (snd settled)
          = events w2 ++ [JobError name (child_inputs c) (ErrExitCode name code)
                            duration (now w2)].
Proof.
  intros Hex Hrun Hsails.
  apply executeJob_Started_inv in Hex as (Hname & _).
  cbv zeta. unfold on_exit, Platform.emit. rewrite Hname, Hrun, Hsails.
  destruct code as [[| |]|]; simpl; done.
Qed.

Lemma exit_reports_duration_witness :
  exists c w1,
    Executor.executeJob Sample.env "report" Sample.report [] Sample.registered
    = (Started c, w1)
    /\ fst (on_exit Sample.env c (Some 0) (set_now (fun _ => 1750) w1))
       = Resolve (Some 750).
Proof.
  eexists _, _. split; [reflexivity|].
  match goal with |- fst (on_exit _ ?c _ ?w2) = _ =>
    destruct (exit_reports_duration Sample.env "report" Sample.report []
                Sample.registered _ w2 c (Some 0) eq_refl eq_refl eq_refl)
      as (_ & H)
  end.
  exact (proj1 H).
Defined.

(** X19. Overlapping runs share one entry of the in-flight table.  For a job
    that allows overlap, started at an instant and again at [t2] while the
    first run is in flight, the first exit (at [t3]) reports its duration
    from [t2], the start of the second run, and removes the entry; the
    later exit of the second run then finds no start instant and reports
    no number ([NaN]).  (When [JSON.stringify] refuses an input or [spawn]
    throws, the dispatch is rejected and there is no run.) *)
Theorem overlapping_runs_durations (E : Env) (name : string) (job : Job)
    (custom : Obj) (w : World) (t2 t3 t4 : Z) :
  job_withoutOverlapping job = false ->
  job_paused job = false ->
  script_exists E name = true ->
  match spawn_args E name (merged_inputs job custom) with
  | Some args =>
      exists cA wA cB wB,
        Executor.executeJob E name job custom w = (Started cA, wA)
        /\ Executor.executeJob E name job custom (set_now (fun _ => t2) wA)
           = (Started cB, wB)
        /\ let first := on_exit E cA (Some 0) (set_now (fun _ => t3) wB) in
           fst first = Resolve (Some (t3 - t2))
           /\ fst (on_exit E cB (Some 0) (set_now (fun _ => t4) (snd first)))
              = Resolve None
  | None =>
      exists e w',
        Executor.executeJob E name job custom w = (Rejected e, w')
        /\ children w' = children w
  end.
Proof.
  intros Hwo Hp Hs.
  assert (forall w0, overlap_blocked name job w0 = false) as Hb.
  { intros w0. unfold overlap_blocked. by rewrite Hwo. }
  destruct (spawn_args E name (merged_inputs job custom)) as [args|] eqn:Ha.
  - apply spawn_args_Some in Ha as [Hargs Hsp].
    destruct (executeJob_started E name job custom args w)
      as (cA & wA & HA & HcA & _); [done..|].
    destruct (executeJob_started E name job custom args (set_now (fun _ => t2) wA))
      as (cB & wB & HB & HcB & HrB & _); [done..|].
    exists cA, wA, cB, wB. split; [exact HA|]. split; [exact HB|].
    cbv zeta. unfold on_exit.
    assert (child_name cA = name) as -> by (by rewrite HcA).
    assert (child_name cB = name) as -> by (by rewrite HcB).
    world_simpl. rewrite HrB. world_simpl. rewrite lookup_insert_eq.
    cbn [fmap option_fmap option_map fst snd].
    split; [done|].
    autorewrite with world. world_simpl. by rewrite lookup_delete_eq.
  - destruct (executeJob_thrown E name job custom w) as (e & w' & Hex & Hc & _);
      [done..|].
    by exists e, w'.
Qed.

Lemma overlapping_runs_durations_witness :
  exists cA wA cB wB,
    Executor.executeJob Sample.env "report" SampleOverlap.free [] Sample.registered
    = (Started cA, wA)
    /\ Executor.executeJob Sample.env "report" SampleOverlap.free []
         (set_now (fun _ => 2000) wA) = (Started cB, wB)
    /\ fst (on_exit Sample.env cA (Some 0) (set_now (fun _ => 3000) wB))
       = Resolve (Some 1000).
Proof.
  destruct (overlapping_runs_durations Sample.env "report" SampleOverlap.free []
              Sample.registered 2000 3000 4000 eq_refl eq_refl eq_refl)
    as (cA & wA & cB & wB & HA & HB & H1 & _).
  by exists cA, wA, cB, wB.
Defined.

(** X20. Overlap prevention through one run of a job that forbids overlap:
    once the run has started, a second dispatch is turned away with
    already_running and changes nothing; once the run has exited, whatever
    its exit code, the next dispatch starts a new child.  (When
    [JSON.stringify] refuses an input or [spawn] throws, the first dispatch
    is rejected without a child, and the second is turned away all the
    same.) *)
Theorem overlap_released_on_exit (E : Env) (name : string) (job : Job)
    (custom : option Obj) (code : option Z) (w : World) :
  oget name (jobs w) = Some job ->
  job_withoutOverlapping job = true ->
  dispatch_skips name w = false ->
  script_exists E name = true ->
  match spawn_args E name (merged_inputs job (Loader.or_else custom [])) with
  | Some args =>
      exists c w1,
        Context.executeJob E name custom w = (Started c, w1)
        /\ Context.executeJob E name custom w1 = (Skipped already_running, w1)
        /\ exists c' w3,
             Context.executeJob E name custom (snd (on_exit E c code w1))
             = (Started c', w3)
             /\ children w3 = children w ++ [c; c']
  | None =>
      exists e w1,
        Context.executeJob E name custom w = (Rejected e, w1)
        /\ children w1 = children w
        /\ Context.executeJob E name custom w1 = (Skipped already_running, w1)
  end.
Proof.
  intros Hjob Hwo Hskip Hs.
  unfold dispatch_skips, dispatch_skips_job in Hskip. rewrite Hjob in Hskip.
  apply orb_false_iff in Hskip as [Hb Hp].
  destruct (spawn_args E name _) as [args|] eqn:Ha.
  - apply spawn_args_Some in Ha as [Hargs Hsp].
    destruct (executeJob_started E name job (Loader.or_else custom []) args w)
      as (c & w1 & Hex & Hc & Hr & Hch & Hj & _); [done..|].
    exists c, w1. rewrite (context_executeJob_registered _ _ job) by done.
    split; [exact Hex|]. split.
    { rewrite (context_executeJob_registered _ _ job) by (by rewrite Hj).
      apply executeJob_blocked. unfold overlap_blocked.
      rewrite Hwo, Hr, lookup_insert_eq. done. }
    assert (child_name c = name) as Hname by (by rewrite Hc).
    destruct (on_exit_frame E c code w1) as (_ & Hj2 & _).
    set (w2 := snd (on_exit E c code w1)) in *.
    assert (running w2 !! name = None) as Hgone.
    { subst w2. rewrite <- Hname. apply on_exit_deletes. }
    assert (children w2 = children w1) as Hch2.
    { subst w2. unfold on_exit.
      destruct code as [[| |]|]; cbn [snd]; by autorewrite with world. }
    destruct (executeJob_started E name job (Loader.or_else custom []) args w2)
      as (c' & w3 & Hex3 & _ & _ & Hch3 & _); [|done..|].
    { unfold overlap_blocked. by rewrite Hgone, Hwo. }
    exists c', w3. rewrite (context_executeJob_registered _ _ job)
      by (by rewrite Hj2, Hj).
    split; [exact Hex3|]. by rewrite Hch3, Hch2, Hch, <- app_assoc.
  - destruct (executeJob_thrown E name job (Loader.or_else custom []) w)
      as (e & w1 & Hex & Hc & Hr & Hj & _); [done..|].
    exists e, w1. rewrite (context_executeJob_registered _ _ job) by done.
    split; [exact Hex|]. split; [exact Hc|].
    rewrite (context_executeJob_registered _ _ job) by (by rewrite Hj).
    apply executeJob_blocked. unfold overlap_blocked.
    rewrite Hwo, Hr, lookup_insert_eq. done.
Qed.

Lemma overlap_released_on_exit_witness :
  exists c w1,
    Context.executeJob Sample.env "report" None Sample.registered = (Started c, w1)
    /\ Context.executeJob Sample.env "report" None w1 = (Skipped already_running, w1).
Proof.
  destruct (overlap_released_on_exit Sample.env "report" Sample.report None (Some 1)
              Sample.registered eq_refl eq_refl eq_refl eq_refl)
    as (c & w1 & H1 & H2 & _).
  by exists c, w1.
Defined.

(** ** A run in flight *)

Lemma in_flight_reachable : reachable Sample.env SampleRun.in_flight.
Proof.
  destruct armed_reachable as [t0 Harmed]. exists t0.
  apply (rtc_r _ SampleRun.started);
    [apply (rtc_r _ SampleRun.due); [apply (rtc_r _ SampleRecurring.armed)|]|].
  - exact Harmed.
  - apply (step_tick Sample.env SampleRecurring.armed 1000).
  - apply (step_fire Sample.env SampleRun.due SampleRecurring.first_timer 2
             SampleRun.started).
    + assert (pending SampleRun.due = [SampleRecurring.first_timer]) as ->
        by (vm_compute; reflexivity).
      left.
    + vm_compute. reflexivity.
  - apply (step_tick Sample.env SampleRun.started 1500).
Defined.

(** ** core/loader.js *)

Lemma extract_fold_lookup (l : list (string * option JsVal)) (acc : Obj) (k : string) :
  NoDup (okeys l) ->
  oget k (fold_left
            (fun defaults p =>
               match snd p with
               | Some d => oset (fst p) d defaults
               | None => defaults
               end) l acc)
  = match oget k l with
    | Some (Some d) => Some d
    | _ => oget k acc
    end.
Proof.
  revert acc. induction l as [|[k' d'] l IH]; intros acc Hnd; [done|].
  apply NoDup_cons in Hnd as [Hnotin Hnd]. simpl. rewrite IH by done.
  destruct (String.eqb k k') eqn:Hk.
  - apply String.eqb_eq in Hk. subst k'.
    assert (oget k l = None) as -> by (by apply oget_None_not_in).
    destruct d' as [d|]; [apply oget_oset_eq | done].
  - apply String.eqb_neq in Hk.
    destruct (oget k l) as [[d|]|]; [done| |];
      (destruct d' as [d0|]; [apply oget_oset_ne; congruence | done]).
Qed.

(** X22. The defaults [extractScriptInputDefaults] takes from a script's
    declared inputs: an input is in the result exactly when it declares a
    [defaultsTo], with that value; inputs without a default, and names the
    script does not declare, are absent; a script without [inputs] gives the
    empty object. *)
Theorem extractScriptInputDefaults_lookup (inputs : list (string * option JsVal))
    (k : string) :
  NoDup (okeys inputs) ->
  oget k (Loader.extractScriptInputDefaults (Some inputs))
  = match oget k inputs with
    | Some (Some d) => Some d
    | _ => None
    end.
Proof.
  intros Hnd. unfold Loader.extractScriptInputDefaults.
  by rewrite extract_fold_lookup.
Qed.

Lemma extractScriptInputDefaults_lookup_witness :
  oget "daysOld" (Loader.extractScriptInputDefaults
                    (Loader.script_inputs SampleScripts.report_script)) = Some (VNum 30)
  /\ oget "dryRun" (Loader.extractScriptInputDefaults
                      (Loader.script_inputs SampleScripts.report_script)) = None.
Proof.
  assert (NoDup (okeys [("daysOld", Some (VNum 30)); ("dryRun", @None JsVal)])) as Hnd.
  { apply (bool_decide_unpack _). reflexivity. }
  split.
  - exact (extractScriptInputDefaults_lookup _ "daysOld" Hnd).
  - exact (extractScriptInputDefaults_lookup _ "dryRun" Hnd).
Defined.

Lemma oget_odelete_ne {A} (k k' : string) (m : list (string * A)) :
  k <> k' -> oget k' (odelete k m) = oget k' m.
Proof.
  intros Hne. induction m as [|[k0 v0] m IH]; simpl; [done|].
  destruct (String.eqb k k0) eqn:Hk; simpl.
  - apply String.eqb_eq in Hk. subst k0.
    destruct (String.eqb k' k) eqn:Hk'; [|done].
    apply String.eqb_eq in Hk'. congruence.
  - by rewrite IH.
Qed.

(** X23. Registering a definition with a non-empty name: afterwards the
    registry holds, under that name, a job that is not paused, whose overlap
    policy is the definition's, else the configuration's, else [true], and
    whose inputs default to the empty object; every other name is as
    before.  An earlier job of that name is replaced, pause flag
    included. *)
Theorem addJobDefinition_registers (def : JobDef) (jobs : list (string * Job))
    (cfg : Config) (name : string) :
  def_name def = Some name ->
  name <> "" ->
  (exists job,
     oget name (Loader.addJobDefinition def jobs cfg) = Some job
     /\ job_name job = name
     /\ job_paused job = false
     /\ job_withoutOverlapping job
        = match def_withoutOverlapping def, cfg_withoutOverlapping cfg with
          | Some b, _ => b
          | None, Some b => b
          | None, None => true
          end
     /\ job_inputs job = Loader.or_else (def_inputs def) []
     /\ job_interval job = def_interval def /\ job_cron job = def_cron def
     /\ job_timeout job = def_timeout def /\ job_date job = def_date def)
  /\ (forall other, other <> name ->
        oget other (Loader.addJobDefinition def jobs cfg) = oget other jobs).
Proof.
  intros Hname Hne. unfold Loader.addJobDefinition. rewrite Hname.
  apply String.eqb_neq in Hne. rewrite Hne. split.
  - eexists. split; [apply oget_oset_eq|]. simpl.
    repeat split.
    by destruct (def_withoutOverlapping def), (cfg_withoutOverlapping cfg).
  - intros other Ho. apply oget_oset_ne. congruence.
Qed.

Lemma addJobDefinition_registers_witness :
  exists job,
    oget "report" (Loader.addJobDefinition Sample.report_def (jobs Sample.on_hold)
                     Sample.quest_config) = Some job
    /\ job_paused job = false /\ job_withoutOverlapping job = true.
Proof.
  destruct (addJobDefinition_registers Sample.report_def (jobs Sample.on_hold)
              Sample.quest_config "report" eq_refl)
    as [(job & Hget & _ & Hp & Hwo & _) _]; [discriminate|].
  by exists job.
Defined.

(** X24. [removeJob] answers whether the job was registered.  Afterwards the
    name is not registered, has no entry in the timer table and no live
    timer; the other jobs, the in-flight table and the spawned children are
    as before; removing the same name again answers [false]. *)
Theorem removeJob_removes (name : string) (w : World) :
  timers_consistent w ->
  let w' := snd (Loader.removeJob name w) in
  fst (Loader.removeJob name w) = Scheduler.is_some (oget name (jobs w))
  /\ oget name (jobs w') = None
  /\ timers w' !! name = None
  /\ live_timers name w' = []
  /\ (forall other, other <> name -> oget other (jobs w') = oget other (jobs w))
  /\ running w' = running w /\ children w' = children w
  /\ fst (Loader.removeJob name w') = false.
Proof.
  intros Hc. cbv zeta. rewrite removeJob_stopJob.
  destruct (stopJob_clears name w Hc) as (_ & Hl & Ht).
  destruct (stopJob_same name w) as (_ & Hj & Hr & Hch & _).
  split.
  { unfold Loader.removeJob. by destruct (timers w !! name). }
  world_simpl. split; [apply oget_odelete_eq|]. split; [exact Ht|].
  split; [exact Hl|]. split.
  { intros other Hne. rewrite Hj. by apply oget_odelete_ne. }
  split; [exact Hr|]. split; [exact Hch|].
  unfold Loader.removeJob.
  match goal with |- context [match ?x with Some _ => _ | None => _ end] =>
    destruct x end; cbn [fst jobs set_jobs set_timers];
    unfold Platform.clearInterval, Platform.clearTimeout; world_simpl;
    by rewrite oget_odelete_eq.
Qed.

Lemma removeJob_removes_witness :
  fst (Loader.removeJob "report" SampleRecurring.armed) = true
  /\ pending (snd (Loader.removeJob "report" SampleRecurring.armed)) = []
  /\ live_timers "report" (snd (Loader.removeJob "report" SampleRecurring.armed)) = [].
Proof.
  destruct (removeJob_removes "report" SampleRecurring.armed
              (reachable_consistent _ _ armed_reachable)) as (H1 & _ & _ & H4 & _).
  split; [exact H1|]. split; [reflexivity | exact H4].
Defined.

Lemma addJobDefinition_keeps (def : JobDef) (jobs : list (string * Job))
    (cfg : Config) (k : string) :
  is_Some (oget k jobs) -> is_Some (oget k (Loader.addJobDefinition def jobs cfg)).
Proof.
  intros Hk. unfold Loader.addJobDefinition.
  destruct (def_name def) as [name|]; [|done].
  destruct (String.eqb name ""); [done|].
  rewrite oget_oset. destruct (String.eqb k name); eauto.
Qed.

Lemma addJobDefinition_adds (def : JobDef) (jobs : list (string * Job))
    (cfg : Config) (name : string) :
  def_name def = Some name -> name <> "" ->
  is_Some (oget name (Loader.addJobDefinition def jobs cfg)).
Proof.
  intros Hname Hne.
  destruct (addJobDefinition_registers def jobs cfg name Hname Hne)
    as [(job & Hget & _) _]. eauto.
Qed.

Lemma load_script_jobs_keeps cfg scripts jobs k :
  is_Some (oget k jobs) -> is_Some (oget k (Loader.load_script_jobs cfg scripts jobs)).
Proof.
  revert jobs. induction scripts as [|[file sd] scripts IH]; intros jobs Hk; [done|].
  simpl. destruct (Loader.script_quest sd); apply IH; [|done].
  by apply addJobDefinition_keeps.
Qed.

Lemma load_config_jobs_registers scripts cfg defs seen jobs jobs' :
  Loader.load_config_jobs scripts cfg defs seen jobs = Loader.Loaded jobs' ->
  (forall name, Some name ∈ map declared_name defs -> name <> "" ->
                is_Some (oget name jobs'))
  /\ (forall k, is_Some (oget k jobs) -> is_Some (oget k jobs')).
Proof.
  revert seen jobs. induction defs as [|d defs IH]; intros seen jobs; simpl.
  - intros [= <-]. split; [|done]. by intros name ?%elem_of_nil.
  - set (job := match d with inl s => Loader.named (Some s) | inr def => def end).
    assert (def_name job = declared_name d) as Hname by (by destruct d).
    destruct (existsb _ seen); [done|].
    set (job' := match oget _ scripts, def_scriptInputs job with
                 | Some sd, None => _ | _, _ => job end).
    assert (def_name job' = declared_name d) as Hname'.
    { subst job'. by destruct (oget _ scripts), (def_scriptInputs job). }
    intros [Hreg Hkeep]%IH. split.
    + intros name [Heq|Hin]%elem_of_cons Hne; [|by apply Hreg].
      apply Hkeep. apply addJobDefinition_adds; [congruence | done].
    + intros k Hk. by apply Hkeep, addJobDefinition_keeps.
Qed.

(** X25. When the names declared in [config.jobs] are all different,
    [loadJobs] does not throw, and every non-empty name declared there is
    registered when it returns; so is every job that was registered
    before. *)
Theorem loadJobs_distinct_names (scripts : list (string * Loader.ScriptDef))
    (cfg : Config) (defs : list (string + JobDef)) (jobs : list (string * Job)) :
  cfg_jobs cfg = Some defs ->
  NoDup (map declared_name defs) ->
  exists jobs',
    Loader.loadJobs scripts cfg jobs = Loader.Loaded jobs'
    /\ (forall name, Some name ∈ map declared_name defs -> name <> "" ->
                     is_Some (oget name jobs'))
    /\ (forall k, is_Some (oget k jobs) -> is_Some (oget k jobs')).
Proof.
  intros Hcfg Hnd.
  destruct (load_config_jobs_app scripts cfg defs [] [] jobs)
    as (jobs1 & H1 & _); [done | by intros n _ ?%elem_of_nil |].
  destruct (load_config_jobs_registers _ _ _ _ _ _ H1) as [Hreg Hkeep].
  unfold Loader.loadJobs. rewrite Hcfg, H1. eexists. split; [reflexivity|].
  split.
  - intros name Hin Hne. by apply load_script_jobs_keeps, Hreg.
  - intros k Hk. by apply load_script_jobs_keeps, Hkeep.
Qed.

Lemma loadJobs_distinct_names_witness :
  exists jobs',
    Loader.loadJobs [("report", SampleScripts.report_script)]
      SampleScripts.quest_config [] = Loader.Loaded jobs'
    /\ is_Some (oget "cleanup" jobs').
Proof.
  destruct (loadJobs_distinct_names [("report", SampleScripts.report_script)]
              SampleScripts.quest_config
              [inr SampleScripts.report_config_def; inl "cleanup"] [] eq_refl)
    as (jobs' & Hload & Hreg & _).
  - apply (bool_decide_unpack _). reflexivity.
  - exists jobs'. split; [exact Hload|]. apply Hreg; [|discriminate].
    right. left.
Defined.

(** X26. A script with a [quest] property, processed after the
    configuration, replaces the job of its name: the schedule fields are
    those of the [quest] property alone (what the configuration set for them
    is dropped); the overlap policy is the [quest] property's, else the one
    the earlier job had; the inputs are the [quest] property's when it has
    any, else a copy of the earlier job's; the script inputs are the
    defaults of the script's declared inputs. *)
Theorem script_quest_replaces (scriptFile : string) (scriptDef : Loader.ScriptDef)
    (questConfig : JobDef) (earlier : Job) (jobs : list (string * Job)) (cfg : Config) :
  def_name questConfig = None ->
  Loader.strip_js scriptFile <> "" ->
  oget (Loader.strip_js scriptFile) jobs = Some earlier ->
  exists job,
    oget (Loader.strip_js scriptFile)
      (Loader.addJobDefinition
         (Loader.script_jobDef scriptFile scriptDef questConfig jobs) jobs cfg)
    = Some job
    /\ job_interval job = def_interval questConfig
    /\ job_cron job = def_cron questConfig
    /\ job_timeout job = def_timeout questConfig
    /\ job_date job = def_date questConfig
    /\ job_withoutOverlapping job
       = Loader.or_else (def_withoutOverlapping questConfig)
           (job_withoutOverlapping earlier)
    /\ job_inputs job
       = Loader.or_else (def_inputs questConfig) (spread [] (job_inputs earlier))
    /\ job_scriptInputs job
       = Loader.extractScriptInputDefaults (Loader.script_inputs scriptDef)
    /\ job_paused job = false.
Proof.
  intros Hname Hne Hearlier.
  set (def := Loader.script_jobDef scriptFile scriptDef questConfig jobs).
  assert (def_name def = Some (Loader.strip_js scriptFile)) as Hdef.
  { unfold def, Loader.script_jobDef. by rewrite Hname. }
  unfold Loader.addJobDefinition. rewrite Hdef.
  apply String.eqb_neq in Hne. rewrite Hne.
  eexists. split; [apply oget_oset_eq|].
  unfold def, Loader.script_jobDef. rewrite Hname. cbn -[spread].
  rewrite Hearlier. cbn -[spread]. repeat split.
  - by destruct (def_withoutOverlapping questConfig).
  - by destruct (def_inputs questConfig).
Qed.

Lemma script_quest_replaces_witness :
  oget "report"
    (Loader.addJobDefinition SampleScripts.report_config_def []
       SampleScripts.quest_config) = Some SampleScripts.report_config_job
  /\ exists job,
       oget "report"
         (Loader.addJobDefinition
            (Loader.script_jobDef "report" SampleScripts.report_script
               SampleScripts.report_quest
               [("report", SampleScripts.report_config_job)])
            [("report", SampleScripts.report_config_job)]
            SampleScripts.quest_config) = Some job
       /\ job_interval job = VUndef
       /\ job_cron job = Some "0 * * * *"
       /\ job_withoutOverlapping job = false
       /\ job_inputs job = [("limit", VNum 10)].
Proof.
  split; [reflexivity|].
  destruct (script_quest_replaces "report" SampleScripts.report_script
              SampleScripts.report_quest SampleScripts.report_config_job
              [("report", SampleScripts.report_config_job)]
              SampleScripts.quest_config eq_refl)
    as (job & Hget & Hi & Hc & _ & _ & Hwo & Hin & _).
  - discriminate.
  - reflexivity.
  - exists job. split; [exact Hget|]. by repeat split.
Defined.

(** ** index.js: the public API *)

Lemma removeJob_existed name w :
  fst (Loader.removeJob name w) = Scheduler.is_some (oget name (jobs w)).
Proof. unfold Loader.removeJob. by destruct (timers w !! name). Qed.

Lemma removeJob_jobs name w :
  jobs (snd (Loader.removeJob name w)) = odelete name (jobs w).
Proof. rewrite removeJob_stopJob. world_simpl. by rewrite stopJob_jobs. Qed.

Lemma remove_cons name names w :
  Hook.remove (name :: names) w =
  (if fst (Loader.removeJob name w)
   then name :: fst (Hook.remove names (snd (Loader.removeJob name w)))
   else fst (Hook.remove names (snd (Loader.removeJob name w))),
   snd (Hook.remove names (snd (Loader.removeJob name w)))).
Proof.
  cbn [Hook.remove]. destruct (Loader.removeJob name w) as [e w1].
  cbn [fst snd]. by destruct (Hook.remove names w1).
Qed.

Lemma filter_ext_elem {A} (P Q : A -> Prop) `{!forall x, Decision (P x)}
    `{!forall x, Decision (Q x)} (l : list A) :
  (forall x, x ∈ l -> P x <-> Q x) -> filter P l = filter Q l.
Proof.
  induction l as [|a l IH]; intros Hpq; [done|].
  rewrite !filter_cons. rewrite IH by (intros x Hx; apply Hpq; by right).
  destruct (decide (P a)) as [Hp|Hp], (decide (Q a)) as [Hq|Hq]; try done.
  - destruct Hq. apply Hpq; [by left | done].
  - destruct Hp. apply Hpq; [by left | done].
Qed.

(** X27. [sails.quest.remove] with distinct names answers the names that
    were registered, in the order given, and leaves none of the given names
    registered; names that were never registered are passed over. *)
Theorem remove_reports_registered (names : list string) (w : World) :
  NoDup names ->
  fst (Hook.remove names w) = filter (fun n => is_Some (oget n (jobs w))) names
  /\ (forall n, n ∈ names -> oget n (jobs (snd (Hook.remove names w))) = None)
  /\ (forall k, k ∉ names ->
        oget k (jobs (snd (Hook.remove names w))) = oget k (jobs w)).
Proof.
  revert w. induction names as [|name names IH]; intros w Hnd.
  - simpl. split; [done|]. split; [by intros n ?%elem_of_nil | done].
  - apply NoDup_cons in Hnd as [Hnotin Hnd]. rewrite remove_cons.
    pose proof (removeJob_existed name w) as Hex.
    pose proof (removeJob_jobs name w) as Hj.
    destruct (Loader.removeJob name w) as [existed w1]. cbn [fst snd] in *.
    destruct (IH w1 Hnd) as (Hfst & Hgone & Hkeep).
    destruct (Hook.remove names w1) as [removed w2]. cbn [fst snd] in *.
    assert (filter (fun n => is_Some (oget n (jobs w1))) names
            = filter (fun n => is_Some (oget n (jobs w))) names) as Hsame.
    { apply filter_ext_elem. intros n Hn. rewrite Hj.
      rewrite oget_odelete_ne; [done|]. intros ->. done. }
    split; [|split].
    + rewrite filter_cons, <- Hsame, <- Hfst, Hex.
      by destruct (oget name (jobs w)).
    + intros n [->|Hin]%elem_of_cons; [|by apply Hgone].
      rewrite Hkeep by done. rewrite Hj. apply oget_odelete_eq.
    + intros k [Hne Hk]%not_elem_of_cons.
      rewrite Hkeep by done. rewrite Hj. apply oget_odelete_ne. congruence.
Qed.

Lemma remove_reports_registered_witness :
  fst (Hook.remove ["ghost"; "report"] SampleRecurring.armed) = ["report"]
  /\ jobs (snd (Hook.remove ["ghost"; "report"] SampleRecurring.armed)) = [].
Proof.
  destruct (remove_reports_registered ["ghost"; "report"] SampleRecurring.armed)
    as (Hfst & _).
  - apply (bool_decide_unpack _). reflexivity.
  - split; [|reflexivity]. rewrite Hfst. reflexivity.
Defined.

(** X28. A duplicate name in [config.jobs] stops the hook's start-up: the
    load throws before anything is started, so whatever [autoStart] says no
    timer is armed and no job is run. *)
Theorem initialize_duplicate_arms_nothing (E : Env) (fuel : nat)
    (scripts : list (string * Loader.ScriptDef)) (pre post : list (string + JobDef))
    (d : string + JobDef) (w : World) :
  cfg_jobs (config E) = Some (pre ++ d :: post) ->
  NoDup (map declared_name pre) ->
  declared_name d ∈ map declared_name pre ->
  exists w',
    Hook.initialize E fuel scripts w = Thrown (ErrDuplicateName (declared_name d)) w'
    /\ pending w' = pending w /\ timers w' = timers w
    /\ children w' = children w /\ running w' = running w.
Proof.
  intros Hcfg Hnd Hdup.
  destruct (load_config_jobs_app scripts (config E) pre (d :: post) [] (jobs w))
    as (jobs_pre & H1 & H2); [done | by intros n _ ?%elem_of_nil |].
  unfold Hook.initialize, Loader.loadJobs. rewrite Hcfg, H2. simpl.
  set (job := match d with inl s => Loader.named (Some s) | inr def => def end).
  assert (def_name job = declared_name d) as -> by (by destruct d).
  assert (existsb (Loader.option_string_eqb (declared_name d))
            (rev (map declared_name pre) ++ []) = true) as ->.
  { apply seen_name_spec. rewrite app_nil_r.
    apply list_elem_of_In. rewrite <- in_rev. by apply list_elem_of_In. }
  by eexists.
Qed.

Lemma initialize_duplicate_arms_nothing_witness :
  exists w',
    Hook.initialize
      {| cron_next := cron_next Sample.env; later_text := later_text Sample.env;
         humanInterval := humanInterval Sample.env;
         script_exists := script_exists Sample.env;
         spawn_throws := spawn_throws Sample.env; global_sails := true;
         config := SampleLoad.twice_a |} 1 [] (initial 0)
    = Thrown (ErrDuplicateName (Some "a")) w'
    /\ pending w' = [].
Proof.
  destruct (initialize_duplicate_arms_nothing
              {| cron_next := cron_next Sample.env; later_text := later_text Sample.env;
                 humanInterval := humanInterval Sample.env;
                 script_exists := script_exists Sample.env;
         spawn_throws := spawn_throws Sample.env; global_sails := true;
                 config := SampleLoad.twice_a |} 1 [] [inl "a"] [inl "b"] (inl "a")
              (initial 0) eq_refl) as (w' & H & Hp & _).
  - apply (bool_decide_unpack _). reflexivity.
  - apply (bool_decide_unpack _). reflexivity.
  - by exists w'.
Defined.

(** ** The registry at any time *)

Lemma okeys_odelete_subset {A} (k k' : string) (m : list (string * A)) :
  k' ∈ okeys (odelete k m) -> k' ∈ okeys m.
Proof.
  induction m as [|[k0 v0] m IH]; simpl; [done|].
  destruct (String.eqb k k0); simpl.
  - intros H. right. by apply IH.
  - intros [->|H]%elem_of_cons; [left | right; by apply IH].
Qed.

Lemma okeys_odelete_NoDup {A} (k : string) (m : list (string * A)) :
  NoDup (okeys m) -> NoDup (okeys (odelete k m)).
Proof.
  induction m as [|[k0 v0] m IH]; simpl; [done|].
  intros [Hn Hnd]%NoDup_cons. destruct (String.eqb k k0); simpl; [by apply IH|].
  apply NoDup_cons. split; [|by apply IH].
  intros H%okeys_odelete_subset. done.
Qed.

Lemma registry_ok_add def jobs cfg :
  registry_ok jobs -> registry_ok (Loader.addJobDefinition def jobs cfg).
Proof.
  intros [Hnd Hnames]. unfold Loader.addJobDefinition.
  destruct (def_name def) as [name|]; [|done].
  destruct (String.eqb name "") eqn:Hne; [done|].
  apply String.eqb_neq in Hne. split; [by apply okeys_oset_NoDup|].
  intros n j. rewrite oget_oset.
  destruct (String.eqb n name) eqn:Hn.
  - apply String.eqb_eq in Hn. subst n. by intros [= <-].
  - apply Hnames.
Qed.

Lemma registry_ok_delete name jobs :
  registry_ok jobs -> registry_ok (odelete name jobs).
Proof.
  intros [Hnd Hnames]. split; [by apply okeys_odelete_NoDup|].
  intros n j Hget. apply Hnames.
  destruct (decide (name = n)) as [->|Hne].
  - by rewrite oget_odelete_eq in Hget.
  - by rewrite oget_odelete_ne in Hget.
Qed.

Lemma registry_ok_paused b name job jobs :
  oget name jobs = Some job ->
  registry_ok jobs -> registry_ok (oset name (with_paused b job) jobs).
Proof.
  intros Hjob [Hnd Hnames]. split; [by apply okeys_oset_NoDup|].
  intros n j. rewrite oget_oset.
  destruct (String.eqb n name) eqn:Hn; [|by intros ?%Hnames].
  apply String.eqb_eq in Hn. subst n. intros [= <-].
  destruct (Hnames _ _ Hjob) as [Hname Hne]. split; [by destruct job | done].
Qed.

Lemma registry_ok_load scripts cfg jobs :
  registry_ok jobs -> registry_ok (loaded_jobs (Loader.loadJobs scripts cfg jobs)).
Proof.
  intros Hok. unfold Loader.loadJobs.
  assert (forall defs seen js, registry_ok js ->
            registry_ok (loaded_jobs (Loader.load_config_jobs scripts cfg defs seen js)))
    as Hcfg.
  { induction defs as [|d defs IH]; intros seen js Hjs; simpl; [done|].
    destruct (existsb _ seen); [done|]. by apply IH, registry_ok_add. }
  assert (forall ss js, registry_ok js ->
            registry_ok (Loader.load_script_jobs cfg ss js)) as Hscr.
  { induction ss as [|[file sd] ss IH]; intros js Hjs; simpl; [done|].
    destruct (Loader.script_quest sd); apply IH; [|done].
    by apply registry_ok_add. }
  destruct (cfg_jobs cfg) as [defs|].
  - specialize (Hcfg defs [] jobs Hok).
    destruct (Loader.load_config_jobs scripts cfg defs [] jobs); simpl in *;
      [by apply Hscr | done].
  - simpl. by apply Hscr.
Qed.

Lemma add_registry_ok E fuel defs w w' :
  registry_ok (jobs w) ->
  world_of (Hook.add E fuel defs w) = Some w' -> registry_ok (jobs w').
Proof.
  revert w. induction defs as [|def defs IH]; intros w Hok; simpl.
  - by intros [= <-].
  - set (job := match def with inl s => Loader.named (Some s) | inr d => d end).
    set (w1 := set_jobs _ w).
    assert (registry_ok (jobs w1)) as Hok1 by (by apply registry_ok_add).
    assert (forall o w2, o = Done w1 \/ (exists n, o = scheduleJob E fuel n w1) ->
              world_of o = Some w2 -> jobs w2 = jobs w1) as Hsched.
    { intros o w2 [->|[n ->]]; [simpl; by intros [= <-]|].
      apply scheduleJob_jobs. }
    match goal with |- context [match ?o with Done _ => _ | _ => _ end] =>
      assert (o = Done w1 \/ (exists n, o = scheduleJob E fuel n w1)) as Ho;
      [|destruct o as [w2|e w2|] eqn:Heq]
    end.
    + destruct (cfg_autoStart (config E)); [|by left].
      destruct (def_name job); [right; eauto | by left].
    + apply IH. by rewrite (Hsched _ w2 Ho).
    + intros [= <-]. by rewrite (Hsched _ w2 Ho).
    + done.
Qed.

Lemma stopJobs_same names w : same_but_timers w (stopJobs names w).
Proof.
  unfold stopJobs. generalize (names_of names w) as l. intros l. revert w.
  induction l as [|n l IH]; intros w; simpl; [apply same_but_timers_refl|].
  eapply same_but_timers_trans; [apply stopJob_same | apply IH].
Qed.

Lemma remove_registry_ok names w :
  registry_ok (jobs w) -> registry_ok (jobs (snd (Hook.remove names w))).
Proof.
  revert w. induction names as [|name names IH]; intros w Hok; [done|].
  rewrite remove_cons. cbn [snd]. apply IH.
  rewrite removeJob_jobs. by apply registry_ok_delete.
Qed.

Lemma step_registry_ok E w w' :
  step E w w' -> registry_ok (jobs w) -> registry_ok (jobs w').
Proof.
  intros Hstep Hok. destruct Hstep.
  - done.
  - match goal with Hf : world_of (Hook.fire _ _ _ _) = _ |- _ => revert Hf end.
    unfold Hook.fire. set (w0 := set_pending _ w).
    destruct (timer_cb t) as [name|name job]; simpl.
    + intros Hs%scheduleJob_jobs. by rewrite Hs.
    + destruct (context_executeJob_frame E name None w0) as (_ & Hj & _).
      destruct (recurring job).
      * intros Hs%scheduleJob_jobs. by rewrite Hs, Hj.
      * intros [= <-]. by rewrite Hj.
  - by destruct (on_exit_frame E c code w) as (_ & -> & _).
  - by destruct (on_error_frame E c err w) as (_ & -> & _).
  - match goal with Hi : world_of (Hook.initialize _ _ _ _) = _ |- _ => revert Hi end.
    unfold Hook.initialize.
    pose proof (registry_ok_load scripts (config E) (jobs w) Hok) as Hl.
    destruct (Loader.loadJobs scripts (config E) (jobs w)) as [jobs'|e jobs'];
      simpl in Hl.
    + destruct (cfg_autoStart (config E)); [|by intros [= <-]].
      intros Hs%schedule_each_jobs. by rewrite Hs.
    + by intros [= <-].
  - match goal with Hs : world_of (startJobs _ _ _ _) = _ |- _ =>
      apply schedule_each_jobs in Hs; by rewrite Hs end.
  - by destruct (stopJobs_same names w) as (_ & -> & _).
  - unfold runJobs.
    by destruct (run_each_frame E (names_of names w) inputs w) as (_ & -> & _).
  - by eapply add_registry_ok.
  - by apply remove_registry_ok.
  - unfold pauseJob. destruct (oget name (jobs w)) eqn:Hjob; [|done].
    cbn [snd]. world_simpl. by apply registry_ok_paused.
  - unfold resumeJob. destruct (oget name (jobs w)) eqn:Hjob; [|done].
    cbn [snd]. world_simpl. by apply registry_ok_paused.
Qed.

(** X29. At any time the registry is well formed: no name is registered
    twice, every job sits under the name it carries, and no job is
    registered under the empty name. *)
Theorem registry_always_ok (E : Env) (w : World) :
  reachable E w -> registry_ok (jobs w).
Proof.
  intros [t0 Hrtc]. revert w Hrtc. apply rtc_ind_r.
  - split; [constructor|]. by intros name job.
  - intros y z _ Hstep IH. by eapply step_registry_ok.
Qed.

Lemma registry_always_ok_witness :
  reachable Sample.env SampleRun.in_flight
  /\ registry_ok (jobs SampleRun.in_flight).
Proof.
  split; [exact in_flight_reachable|].
  exact (registry_always_ok Sample.env SampleRun.in_flight in_flight_reachable).
Defined.



(** ** machine-as-job.js *)

Lemma inputsWithDefaults_fold (declared : list (string * option JsVal))
    (jobInputs acc : Obj) (k : string) :
  NoDup (okeys declared) ->
  oget k (fold_left
            (fun acc p =>
               match oget (fst p) jobInputs with
               | Some v => oset (fst p) v acc
               | None =>
                   match snd p with
                   | Some d => oset (fst p) d acc
                   | None => acc
                   end
               end) declared acc)
  = match oget k declared with
    | None => oget k acc
    | Some dflt =>
        match oget k jobInputs with
        | Some v => Some v
        | None => match dflt with Some d => Some d | None => oget k acc end
        end
    end.
Proof.
  revert acc. induction declared as [|[k' d'] l IH]; intros acc Hnd; [done|].
  apply NoDup_cons in Hnd as [Hnotin Hnd]. simpl. rewrite IH by done.
  destruct (String.eqb k k') eqn:Hk.
  - apply String.eqb_eq in Hk. subst k'.
    assert (oget k l = None) as -> by (by apply oget_None_not_in).
    destruct (oget k jobInputs); [apply oget_oset_eq|].
    destruct d'; [apply oget_oset_eq | done].
  - apply String.eqb_neq in Hk.
    assert (forall v, oget k (oset k' v acc) = oget k acc) as Hne
      by (intros v; apply oget_oset_ne; congruence).
    destruct (oget k l) as [dflt|].
    + destruct (oget k jobInputs); [done|]. destruct dflt; [done|].
      destruct (oget k' jobInputs); [apply Hne|]. destruct d'; [apply Hne | done].
    + destruct (oget k' jobInputs); [apply Hne|]. destruct d'; [apply Hne | done].
Qed.

(** X30. The inputs [machineAsJob] gives to the machine: for an input the
    definition declares, the value the job was called with when it has one,
    else the declared default, else nothing; an input the definition does
    not declare is dropped, whatever the caller gave for it. *)
Theorem inputsWithDefaults_lookup (declared : list (string * option JsVal))
    (jobInputs : Obj) (k : string) :
  NoDup (okeys declared) ->
  oget k (MachineAsJob.inputsWithDefaults (Some declared) jobInputs)
  = match oget k declared with
    | None => None
    | Some dflt =>
        match oget k jobInputs with
        | Some v => Some v
        | None => dflt
        end
    end.
Proof.
  intros Hnd. unfold MachineAsJob.inputsWithDefaults.
  rewrite inputsWithDefaults_fold by done.
  destruct (oget k declared) as [[d|]|]; by destruct (oget k jobInputs).
Qed.

Lemma inputsWithDefaults_lookup_witness :
  MachineAsJob.inputsWithDefaults
    (Some [("daysOld", Some (VNum 30)); ("dryRun", None)])
    [("daysOld", VNum 7); ("extra", VBool true)]
  = [("daysOld", VNum 7)]
  /\ oget "extra"
       (MachineAsJob.inputsWithDefaults
          (Some [("daysOld", Some (VNum 30)); ("dryRun", None)])
          [("daysOld", VNum 7); ("extra", VBool true)]) = None.
Proof.
  split; [reflexivity|].
  apply (inputsWithDefaults_lookup [("daysOld", Some (VNum 30)); ("dryRun", None)]
           [("daysOld", VNum 7); ("extra", VBool true)] "extra").
  apply (bool_decide_unpack _). reflexivity.
Defined.
